(** * Table question answering service: CSV table loader and inference connector

    A shallow embedding of [final-project-golang-ai-v4/main.go]:
    - [CsvToSlice] turns the text of a CSV document into a column-oriented
      table, a Go [map[string][]string];
    - [ConnectAIModel] sends the table and a query to the remote model and
      decodes the answer;
    - the [/ask] handler of [main] glues the two together.

    Go strings and byte slices are sequences of bytes: a [string] here is a
    Go string, a [list ascii] a Go [[]byte].  Go's [int] is modelled by [Z].
    A Go map is a [gmap]; the nil map and the nil error are [None]. *)

From Stdlib Require Import ZArith Ascii String List Lia.
From stdpp Require Import base option list gmap strings fin_maps pretty.


(** ** Bytes *)

Abbreviation bytes := (list ascii).

Definition NL : ascii := "010"%char.
Definition CR : ascii := "013"%char.
Definition dquote : ascii := "034"%char.
Definition comma : ascii := ","%char.

Definition bytes_of (s : string) : bytes := list_ascii_of_string s.
Definition string_of (b : bytes) : string := string_of_list_ascii b.

(** [bytes.IndexByte]: the index of the first [c] in [b]; Go's [-1] is [None]. *)
Fixpoint IndexByte (b : bytes) (c : ascii) : option nat :=
  match b with
  | [] => None
  | x :: b' => if Ascii.eqb x c then Some 0 else S <$> IndexByte b' c
  end.

(** [lengthNL] of encoding/csv: the number of bytes of the trailing newline. *)
Definition lengthNL (b : bytes) : nat :=
  match last b with
  | Some c => if Ascii.eqb c NL then 1 else 0
  | None => 0
  end.

(** ** Errors

    A Go [error] value.  [errorString] is what [errors.New] and [fmt.Errorf]
    build, [csvParseError] is [*csv.ParseError] (its column is not modelled),
    [io_EOF] is [io.EOF]; [jsonSyntaxError] is [*json.SyntaxError] (its
    message and offset are not modelled) and [jsonUnmarshalTypeError] is
    [*json.UnmarshalTypeError], with the description of the JSON value and
    the name of the field. *)

Inductive csvErr := ErrBareQuote | ErrQuote | ErrFieldCount.

Record ParseError := mkParseError { StartLine : Z; Line : Z; Err : csvErr }.

Inductive error :=
| io_EOF
| io_ErrUnexpectedEOF
| errorString (s : string)
| csvParseError (e : ParseError)
| jsonSyntaxError
| jsonUnmarshalTypeError (value field : string).

Definition errors_New (text : string) : error := errorString text.

Global Instance csvErr_eq_dec : EqDecision csvErr.
Proof. solve_decision. Defined.
Global Instance ParseError_eq_dec : EqDecision ParseError.
Proof. solve_decision. Defined.
Global Instance error_eq_dec : EqDecision error.
Proof. solve_decision. Defined.

(** ** encoding/csv

    The reader of Go's standard library, as far as [CsvToSlice] configures
    it: [csv.NewReader] sets [Comma] to a comma and leaves [Comment] unset,
    [LazyQuotes] false and [FieldsPerRecord] zero; [CsvToSlice] then sets
    [TrimLeadingSpace].  The branches for comments and lazy quotes are never
    taken and are left out.  The underlying [strings.Reader] fails with
    [io.EOF] only. *)
Module csv.

Record Reader := mkReader {
  r : bytes;                 (* the input not read yet *)
  numLine : Z;
  FieldsPerRecord : Z;
  TrimLeadingSpace : bool
}.

Definition NewReader (data : string) : Reader :=
  {| r := bytes_of data; numLine := 0; FieldsPerRecord := 0;
     TrimLeadingSpace := false |}.

Definition set_TrimLeadingSpace (v : bool) (rd : Reader) : Reader :=
  {| r := r rd; numLine := numLine rd; FieldsPerRecord := FieldsPerRecord rd;
     TrimLeadingSpace := v |}.

Definition set_FieldsPerRecord (v : Z) (rd : Reader) : Reader :=
  {| r := r rd; numLine := numLine rd; FieldsPerRecord := v;
     TrimLeadingSpace := TrimLeadingSpace rd |}.

(** [bufio.Reader.ReadSlice('\n')]: the bytes up to and including the first
    newline, and what stays unread.  The read hits the end of the input
    exactly when the slice does not end in a newline. *)
Fixpoint ReadSlice (b : bytes) : bytes * bytes :=
  match b with
  | [] => ([], [])
  | c :: b' =>
      if Ascii.eqb c NL then ([c], b')
      else let '(line, rest) := ReadSlice b' in (c :: line, rest)
  end.

Definition dropLastIf (c : ascii) (b : bytes) : bytes :=
  if bool_decide (last b = Some c) then removelast b else b.

(** Normalize [\r\n] to [\n] at the end of a line. *)
Definition normalizeNL (line : bytes) : bytes :=
  let n := length line in
  if (2 <=? n)%nat && bool_decide (line !! (n - 2)%nat = Some CR)
     && bool_decide (line !! (n - 1)%nat = Some NL)
  then removelast (removelast line) ++ [NL]
  else line.

(** [Reader.readLine]: the next line, whether the read ended in [io.EOF], and
    the reader after it.  A final line without newline is returned without
    error (and without a trailing carriage return). *)
Definition readLine (rd : Reader) : bytes * bool * Reader :=
  let '(line, rest) := ReadSlice (r rd) in
  let eof := negb (bool_decide (last line = Some NL)) in
  let readSize := length line in
  let '(line, eof) :=
    if (0 <? readSize)%nat && eof then (dropLastIf CR line, false)
    else (line, eof) in
  let rd' := {| r := rest; numLine := numLine rd + 1;
                FieldsPerRecord := FieldsPerRecord rd;
                TrimLeadingSpace := TrimLeadingSpace rd |} in
  (normalizeNL line, eof, rd').

(** [unicode.IsSpace] on the UTF-8 encoding at the head of [b]: the width in
    bytes of a leading white space rune.  One byte: tab, newline, vertical
    tab, form feed, carriage return, space.  Two bytes: U+0085, U+00A0.
    Three bytes: U+1680, U+2000 to U+200A, U+2028, U+2029, U+202F, U+205F,
    U+3000. *)
Definition isSpace1 (c : ascii) : bool :=
  let n := N_of_ascii c in ((9 <=? n) && (n <=? 13) || (n =? 32))%N.

Definition isSpace2 (c1 c2 : ascii) : bool :=
  let a := N_of_ascii c1 in let b := N_of_ascii c2 in
  ((a =? 194) && ((b =? 133) || (b =? 160)))%N.

Definition isSpace3 (c1 c2 c3 : ascii) : bool :=
  let a := N_of_ascii c1 in let b := N_of_ascii c2 in
  let c := N_of_ascii c3 in
  ((a =? 225) && (b =? 154) && (c =? 128)
   || (a =? 226) && (b =? 128)
      && ((128 <=? c) && (c <=? 138) || (c =? 168) || (c =? 169) || (c =? 175))
   || (a =? 226) && (b =? 129) && (c =? 159)
   || (a =? 227) && (b =? 128) && (c =? 128))%N.

(** [line[bytes.IndexFunc(line, not IsSpace):]], the whole line when it is
    white space only. *)
Fixpoint trimLeft (line : bytes) : bytes :=
  match line with
  | [] => []
  | c1 :: l1 =>
      if isSpace1 c1 then trimLeft l1
      else match l1 with
           | [] => line
           | c2 :: l2 =>
               if isSpace2 c1 c2 then trimLeft l2
               else match l2 with
                    | [] => line
                    | c3 :: l3 =>
                        if isSpace3 c1 c2 c3 then trimLeft l3 else line
                    end
           end
  end.

(** What the field loop of [readRecord] leaves: the fields cut so far, the
    parse error if it stopped on one, and the reader. *)
Definition parsed : Type := list string * option ParseError * Reader.

(** The loop [parseField] of [Reader.readRecord], and its inner loop over a
    quoted field ([cur] is the part of the field copied to the record buffer
    so far).  [recLine] is the line the record starts on, [posLine] is
    [pos.line].  The loops are bounded by [fuel]: [None] when it runs out. *)
Fixpoint parseField (fuel : nat) (rd : Reader) (recLine posLine : Z)
    (line : bytes) (dst : list string) {struct fuel} : option parsed :=
  match fuel with
  | O => None
  | S fuel =>
      let line := if TrimLeadingSpace rd then trimLeft line else line in
      if negb (bool_decide (head line = Some dquote)) then
        (* Non-quoted string field *)
        match IndexByte line comma with
        | Some i =>
            let field := take i line in
            match IndexByte field dquote with
            | Some _ =>
                Some (dst, Some (mkParseError recLine (numLine rd) ErrBareQuote), rd)
            | None =>
                parseField fuel rd recLine posLine (drop (i + 1) line)
                  (dst ++ [string_of field])
            end
        | None =>
            let field := take (length line - lengthNL line) line in
            match IndexByte field dquote with
            | Some _ =>
                Some (dst, Some (mkParseError recLine (numLine rd) ErrBareQuote), rd)
            | None => Some (dst ++ [string_of field], None, rd)
            end
        end
      else
        (* Quoted string field *)
        quotedField fuel rd recLine posLine (drop 1 line) dst []
  end
with quotedField (fuel : nat) (rd : Reader) (recLine posLine : Z)
    (line : bytes) (dst : list string) (cur : bytes) {struct fuel}
    : option parsed :=
  match fuel with
  | O => None
  | S fuel =>
      match IndexByte line dquote with
      | Some i =>
          (* Hit next quote. *)
          let cur := cur ++ take i line in
          let line := drop (i + 1) line in
          if bool_decide (head line = Some dquote) then
            (* two quotes: append a quote *)
            quotedField fuel rd recLine posLine (drop 1 line) dst (cur ++ [dquote])
          else if bool_decide (head line = Some comma) then
            (* quote and comma: end of field *)
            parseField fuel rd recLine posLine (drop 1 line)
              (dst ++ [string_of cur])
          else if (lengthNL line =? length line)%nat then
            (* quote and newline: end of line *)
            Some (dst ++ [string_of cur], None, rd)
          else
            (* invalid non-escaped quote *)
            Some (dst, Some (mkParseError recLine (numLine rd) ErrQuote), rd)
      | None =>
          if (0 <? length line)%nat then
            (* Hit end of line: copy all data so far, read the next line. *)
            let cur := cur ++ line in
            let '(line', _, rd') := readLine rd in
            let posLine' := if (0 <? length line')%nat then (posLine + 1)%Z else posLine in
            quotedField fuel rd' recLine posLine' line' dst cur
          else
            (* Abrupt end of file. *)
            Some (dst, Some (mkParseError recLine posLine ErrQuote), rd)
      end
  end.

(** The first loop of [readRecord]: read lines, skipping the empty ones. *)
Fixpoint nextLine (fuel : nat) (rd : Reader) : option (bytes * bool * Reader) :=
  match fuel with
  | O => None
  | S fuel =>
      let '(line, eof, rd') := readLine rd in
      if negb eof && (length line =? lengthNL line)%nat then nextLine fuel rd'
      else Some (line, eof, rd')
  end.

(** [Reader.readRecord]: one record, with the check (or the setting, on the
    first record) of the expected number of fields. *)
Definition readRecord (fuel : nat) (rd : Reader)
    : option (list string * option error * Reader) :=
  '(line, eof, rd) ← nextLine fuel rd;
  if (eof : bool) then Some ([], Some io_EOF, rd)
  else
    let recLine := numLine rd in
    '(dst, err, rd) ← parseField fuel rd recLine recLine line [];
    if (0 <? FieldsPerRecord rd)%Z then
      if negb (bool_decide (Z.of_nat (length dst) = FieldsPerRecord rd))
         && bool_decide (err = None)
      then Some (dst, Some (csvParseError (mkParseError recLine recLine ErrFieldCount)), rd)
      else Some (dst, csvParseError <$> err, rd)
    else if (FieldsPerRecord rd =? 0)%Z then
      Some (dst, csvParseError <$> err,
            set_FieldsPerRecord (Z.of_nat (length dst)) rd)
    else Some (dst, csvParseError <$> err, rd).

(** The loop of [Reader.ReadAll]. *)
Fixpoint ReadAll_loop (fuel : nat) (rd : Reader) (records : list (list string))
    : option (list (list string) * option error) :=
  match fuel with
  | O => None
  | S fuel =>
      '(record, err, rd) ← readRecord fuel rd;
      match err with
      | Some io_EOF => Some (records, None)
      | Some e => Some ([], Some e)
      | None => ReadAll_loop fuel rd (records ++ [record])
      end
  end.

(** Every turn of every loop consumes input, so this many turns are enough
    (see [ReadAll_loop_enough]). *)
Definition ReadAll_fuel (rd : Reader) : nat := length (r rd) + 2.

(** [Reader.ReadAll]: all remaining records, or [nil] and the first error. *)
Definition ReadAll (rd : Reader) : list (list string) * option error :=
  default ([], None) (ReadAll_loop (ReadAll_fuel rd) rd []).

End csv.

(** ** CsvToSlice *)

(** What running a Go function ends in: it returns, or it panics. *)
Inductive exec (A : Type) : Type :=
| Returns (a : A)
| Panics (why : string).
Arguments Returns {A} a.
Arguments Panics {A} why.

(** The first loop of [CsvToSlice]: every header gets an empty column. *)
Definition initColumns (headers : list string) : gmap string (list string) :=
  foldl (fun result header => <[header := []]> result) ∅ headers.

(** [result[headers[i]] = append(result[headers[i]], value)]; [None] when
    [headers[i]] is out of range (a run-time panic).  Reading a key that a
    map lacks gives the nil slice. *)
Definition appendCell (headers : list string) (result : gmap string (list string))
    (i : nat) (value : string) : option (gmap string (list string)) :=
  h ← headers !! i;
  Some (<[h := default [] (result !! h) ++ [value]]> result).

(** [for i, value := range row], from index [i] on. *)
Fixpoint rangeRow (headers : list string) (result : gmap string (list string))
    (i : nat) (row : list string) : option (gmap string (list string)) :=
  match row with
  | [] => Some result
  | value :: row' =>
      result' ← appendCell headers result i value;
      rangeRow headers result' (S i) row'
  end.

(** [for _, row := range records[1:]]. *)
Fixpoint rangeRows (headers : list string) (result : gmap string (list string))
    (rows : list (list string)) : option (gmap string (list string)) :=
  match rows with
  | [] => Some result
  | row :: rows' =>
      result' ← rangeRow headers result 0 row;
      rangeRows headers result' rows'
  end.

(** The reader [CsvToSlice] builds. *)
Definition tableReader (data : string) : csv.Reader :=
  csv.set_TrimLeadingSpace true (csv.NewReader data).

Definition CsvToSlice (data : string)
    : exec (option (gmap string (list string)) * option error) :=
  let '(records, err) := csv.ReadAll (tableReader data) in
  match err with
  | Some e => Returns (None, Some e)
  | None =>
      if (length records <? 2)%nat then
        Returns (None, Some (errors_New "CSV file must contain at least one row of data"))
      else
        match records with
        | [] => Panics "index out of range"
        | headers :: rows =>
            match rangeRows headers (initColumns headers) rows with
            | Some result => Returns (Some result, None)
            | None => Panics "index out of range"
            end
        end
  end.


(** ** net/http and the world outside

    A library call that returns a value or an error is a [result].  What the
    program does to the outside is recorded as a log of events, threaded
    through the program by the monad [IO]. *)

Inductive result (A : Type) : Type :=
| ok (a : A)
| failed (e : error).
Arguments ok {A} a.
Arguments failed {A} e.

Module http.

Definition StatusOK : Z := 200.
Definition StatusBadRequest : Z := 400.
Definition StatusInternalServerError : Z := 500.

Record Request := mkRequest {
  Method : string;
  URL : string;
  Header : gmap string (list string);
  Body : bytes
}.

(** [http.Response]; [RespBody] is its field [Body], given by what reading
    it to the end yields. *)
Record Response := mkResponse {
  StatusCode : Z;
  Status : string;
  RespBody : result bytes
}.

(** [http.NewRequest].  It fails on an invalid method or a URL that does not
    parse; the program calls it with one constant method and URL, valid
    both, so the error is nil. *)
Definition NewRequest (method url : string) (body : bytes) : Request * option error :=
  (mkRequest method url ∅ body, None).

(** [req.Header.Set(key, value)], for a key in canonical form. *)
Definition Header_Set (key value : string) (req : Request) : Request :=
  mkRequest (Method req) (URL req) (<[key := [value]]> (Header req)) (Body req).

(** [http.Client], given by what the network answers to a request. *)
Record Client := mkClient { RoundTrip : Request → result Response }.

End http.

Inductive event :=
| Sent (req : http.Request)      (* [Client.Do]: a request goes out *)
| BodyRead                       (* [ioutil.ReadAll(resp.Body)] *)
| BodyClosed.                    (* [resp.Body.Close()] *)

Definition IO (A : Type) : Type := list event → A * list event.

Global Instance IO_ret : MRet IO := λ A a log, (a, log).
Global Instance IO_bind : MBind IO :=
  λ A B f m log, let '(a, log') := m log in f a log'.

Definition emit (e : event) : IO unit := λ log, (tt, log ++ [e]).

Definition Client_Do (c : http.Client) (req : http.Request) : IO (result http.Response) :=
  emit (Sent req) ≫= λ _, mret (http.RoundTrip c req).

Definition ioutil_ReadAll (resp : http.Response) : IO (result bytes) :=
  emit BodyRead ≫= λ _, mret (http.RespBody resp).

Definition Body_Close (resp : http.Response) : IO unit := emit BodyClosed.

(** The requests a log holds. *)
Definition requests (log : list event) : list http.Request :=
  omap (λ e, match e with Sent req => Some req | _ => None end) log.

(** ** ConnectAIModel *)

Record AIModelConnector := mkConnector { Client : http.Client }.

(** A nil slice and an empty slice are both the empty list. *)
Record Response := mkResponse {
  Answer : string;
  Coordinates : list (list Z);
  Cells : list string;
  Aggregator : string
}.

(** [Response{}] *)
Definition Response_zero : Response := mkResponse "" [] [] "".

Record Inputs := mkInputs {
  Table : option (gmap string (list string));
  Query : string
}.

(** [fmt.Errorf("failed to get valid response: %d %s", code, status)] *)
Definition errorf_status (code : Z) (status : string) : error :=
  errorString ("failed to get valid response: " +:+ pretty code +:+ " " +:+ status).

Definition endpoint : string :=
  "https://api-inference.huggingface.co/models/google/tapas-base-finetuned-wtq".

Section connector.

(** [payload] is an [interface{}]: any type, with what [json.Marshal] makes of
    its values.  [json_Decode body target] is
    [json.NewDecoder(bytes.NewReader(body)).Decode(&target)]: the target
    after the call, which the decoder may have filled in part when it fails,
    and the error. *)
Context {Payload : Type}.
Variable json_Marshal : Payload → result bytes.
Variable json_Decode : bytes → Response → Response * option error.

(** The part of [ConnectAIModel] that runs between [c.Client.Do] and the
    deferred [resp.Body.Close()]. *)
Definition readAnswer (resp : http.Response) : IO (Response * option error) :=
  if bool_decide (http.StatusCode resp ≠ http.StatusOK) then
    mret (Response_zero,
          Some (errorf_status (http.StatusCode resp) (http.Status resp)))
  else
    respBody ← ioutil_ReadAll resp;
    match respBody with
    | failed err => mret (Response_zero, Some err)
    | ok respBody =>
        let '(response, err) := json_Decode respBody Response_zero in
        match err with
        | Some err => mret (Response_zero, Some err)
        | None => mret (response, None)
        end
    end.

Definition ConnectAIModel (c : AIModelConnector) (payload : Payload) (token : string)
    : IO (Response * option error) :=
  let url := endpoint in
  match json_Marshal payload with
  | failed err => mret (Response_zero, Some err)
  | ok payloadBytes =>
      let '(req, err) := http.NewRequest "POST" url payloadBytes in
      match err with
      | Some err => mret (Response_zero, Some err)
      | None =>
          let req := http.Header_Set "Authorization" ("Bearer " +:+ token) req in
          let req := http.Header_Set "Content-Type" "application/json" req in
          resp ← Client_Do (Client c) req;
          match resp with
          | failed err => mret (Response_zero, Some err)
          | ok resp =>
              res ← readAnswer resp;
              _ ← Body_Close resp;
              mret res
          end
      end
  end.

End connector.

(** ** The handler of POST /ask *)

(** What the handler finds around it: the file system, the body of the
    request as [c.BindJSON] reads it, the environment variables, and the
    network behind the default [http.Client]. *)
Record Env := mkEnv {
  os_Open : string → result (result bytes);  (* [os.Open], then reading the file *)
  BindJSON : result string;                  (* the query of the request, or the error *)
  os_Getenv : string → string;
  network : http.Request → result http.Response
}.

(** What [c.JSON] writes: a status code with a [gin.H] holding one error
    message (built by [fmt.Sprintf] from [msg] and, for a [%v], the error
    [cause]), or with a [Response]. *)
Inductive reply :=
| reply_error (code : Z) (msg : string) (cause : option error)
| reply_json (code : Z) (response : Response).

Section handler.

Variable json_Marshal : Inputs → result bytes.
Variable json_Decode : bytes → Response → Response * option error.

Definition ask (env : Env) : IO (exec reply) :=
  match os_Open env "data-series.csv" with
  | failed err =>
      mret (Returns (reply_error http.StatusInternalServerError
                       "Error reading CSV file: %v" (Some err)))
  | ok data =>
      match data with
      | failed err =>
          mret (Returns (reply_error http.StatusInternalServerError
                           "Error reading CSV file: %v" (Some err)))
      | ok rowData =>
          match CsvToSlice (string_of rowData) with
          | Panics why => mret (Panics why)
          | Returns (_, Some err) =>
              mret (Returns (reply_error http.StatusInternalServerError
                               "Error converting CSV to slice: %v" (Some err)))
          | Returns (table, None) =>
              match BindJSON env with
              | failed _ =>
                  mret (Returns (reply_error http.StatusBadRequest "Invalid request" None))
              | ok query =>
                  let payload := mkInputs table query in
                  let client := http.mkClient (network env) in
                  let connector := mkConnector client in
                  let token := os_Getenv env "HUGGINGFACE_TOKEN" in
                  if bool_decide (token = "") then
                    mret (Returns (reply_error http.StatusInternalServerError
                                     "HUGGINGFACE_TOKEN is not set in the environment" None))
                  else
                    '(response, err) ← ConnectAIModel json_Marshal json_Decode
                                          connector payload token;
                    match err with
                    | Some err =>
                        mret (Returns (reply_error http.StatusInternalServerError
                                         "Error connecting to AI model: %v" (Some err)))
                    | None => mret (Returns (reply_json http.StatusOK response))
                    end
              end
          end
      end
  end.

End handler.

(** ** The routes *)

(** What a request gets: a page ([c.HTML]), the reply of [/ask], the status
    500 of gin's recovery after a panic, or, where no route matches, the
    router's own answer. *)
Inductive answer :=
| answer_html (code : Z) (name : string)
| answer_reply (r : reply)
| answer_recovered
| answer_unrouted.

Section routes.

Variable json_Marshal : Inputs → result bytes.
Variable json_Decode : bytes → Response → Response * option error.

(** The two handlers [main] registers, found by method and path. *)
Definition serve (env : Env) (method path : string) : IO answer :=
  if bool_decide (method = "GET" ∧ path = "/") then
    mret (answer_html http.StatusOK "index.html")
  else if bool_decide (method = "POST" ∧ path = "/ask") then
    r ← ask json_Marshal json_Decode env;
    match r with
    | Returns r => mret (answer_reply r)
    | Panics _ => mret answer_recovered
    end
  else mret answer_unrouted.

End routes.

(** ** encoding/json

    A model of the two entry points the program uses, for the two types it
    uses them at: [json.Marshal] of an [Inputs] and [Decoder.Decode] into a
    [Response]. *)
Module json.

Definition byteN (c : ascii) : N := N_of_ascii c.
Definition byte_of (n : N) : ascii := ascii_of_N n.

Definition isCont (c : ascii) : bool := ((128 <=? byteN c) && (byteN c <=? 191))%N.

(** [utf8.DecodeRune]: the width of the UTF-8 encoding at the head of [b];
    0 where Go returns [RuneError] (and width 1). *)
Definition runeWidth (b : bytes) : nat :=
  match b with
  | [] => 0
  | c0 :: b1 =>
      let n0 := byteN c0 in
      if (n0 <? 128)%N then 1
      else if ((194 <=? n0) && (n0 <=? 223))%N then
        match b1 with
        | c1 :: _ => if isCont c1 then 2 else 0
        | _ => 0
        end
      else if ((224 <=? n0) && (n0 <=? 239))%N then
        match b1 with
        | c1 :: c2 :: _ =>
            let lo := if (n0 =? 224)%N then 160%N else 128%N in
            let hi := if (n0 =? 237)%N then 159%N else 191%N in
            if ((lo <=? byteN c1) && (byteN c1 <=? hi))%N && isCont c2 then 3 else 0
        | _ => 0
        end
      else if ((240 <=? n0) && (n0 <=? 244))%N then
        match b1 with
        | c1 :: c2 :: c3 :: _ =>
            let lo := if (n0 =? 240)%N then 144%N else 128%N in
            let hi := if (n0 =? 244)%N then 143%N else 191%N in
            if ((lo <=? byteN c1) && (byteN c1 <=? hi))%N && isCont c2 && isCont c3
            then 4 else 0
        | _ => 0
        end
      else 0
  end.

(** [utf8.EncodeRune], for a rune that is no surrogate and at most U+10FFFF. *)
Definition EncodeRune (rn : N) : bytes :=
  (if rn <? 128 then [byte_of rn]
   else if rn <? 2048 then
     [byte_of (192 + rn / 64); byte_of (128 + rn mod 64)]
   else if rn <? 65536 then
     [byte_of (224 + rn / 4096); byte_of (128 + (rn / 64) mod 64);
      byte_of (128 + rn mod 64)]
   else
     [byte_of (240 + rn / 262144); byte_of (128 + (rn / 4096) mod 64);
      byte_of (128 + (rn / 64) mod 64); byte_of (128 + rn mod 64)])%N.

(** U+FFFD, the replacement character. *)
Definition RuneError : N := 65533.

Definition hexChar (n : N) : ascii :=
  nth (N.to_nat n) (bytes_of "0123456789abcdef") "0"%char.

Definition hexValue (c : ascii) : option N :=
  let n := byteN c in
  (if (48 <=? n) && (n <=? 57) then Some (n - 48)
   else if (97 <=? n) && (n <=? 102) then Some (n - 87)
   else if (65 <=? n) && (n <=? 70) then Some (n - 55)
   else None)%N.

(** *** Marshal *)

(** The ASCII bytes that [appendString] copies as they are when it escapes
    HTML: all from the space on, but the quote, the backslash and the three
    of HTML. *)
Definition htmlSafe (c : ascii) : bool :=
  let n := byteN c in
  ((32 <=? n) && negb ((n =? 34) || (n =? 92) || (n =? 60) || (n =? 62) || (n =? 38)))%N.

Definition backslash : ascii := "092"%char.

Definition escapeByte (c : ascii) : bytes :=
  let n := byteN c in
  (if (n =? 92) || (n =? 34) then [backslash; c]
   else if n =? 8 then [backslash; "b"%char]
   else if n =? 12 then [backslash; "f"%char]
   else if n =? 10 then [backslash; "n"%char]
   else if n =? 13 then [backslash; "r"%char]
   else if n =? 9 then [backslash; "t"%char]
   else [backslash; "u"%char; "0"%char; "0"%char; hexChar (n / 16); hexChar (n mod 16)])%N.

(** What is left to do with the bytes of a rune already looked at. *)
Inductive pending := Scan | Copy (k : nat) | Skip (k : nat).

(** The body of [appendString]: [src] between quotes, with escapes.  Invalid
    UTF-8 becomes the escape of U+FFFD; U+2028 and U+2029 are written as escapes. *)
Fixpoint escapeString (p : pending) (src : bytes) : bytes :=
  match src with
  | [] => []
  | c :: rest =>
      match p with
      | Copy (S k) => c :: escapeString (Copy k) rest
      | Skip (S k) => escapeString (Skip k) rest
      | _ =>
          if (byteN c <? 128)%N then
            (if htmlSafe c then [c] else escapeByte c) ++ escapeString Scan rest
          else
            match runeWidth src with
            | O => [backslash] ++ bytes_of "ufffd" ++ escapeString Scan rest
            | S w =>
                match src with
                | c0 :: c1 :: c2 :: _ =>
                    if ((byteN c0 =? 226) && (byteN c1 =? 128)
                        && ((byteN c2 =? 168) || (byteN c2 =? 169)))%N
                    then [backslash] ++ bytes_of "u202" ++ [hexChar (byteN c2 - 160)]
                         ++ escapeString (Skip 2) rest
                    else c :: escapeString (Copy w) rest
                | _ => c :: escapeString (Copy w) rest
                end
            end
      end
  end.

Definition appendString (s : string) : bytes :=
  [dquote] ++ escapeString Scan (bytes_of s) ++ [dquote].

Fixpoint joinComma (parts : list bytes) : bytes :=
  match parts with
  | [] => []
  | [p] => p
  | p :: parts' => p ++ [comma] ++ joinComma parts'
  end.

(** A [[]string] that is not nil. *)
Definition marshalStrings (l : list string) : bytes :=
  bytes_of "[" ++ joinComma (appendString <$> l) ++ bytes_of "]".

(** Map keys are written in sorted order, sorted as byte strings. *)
Fixpoint insertKey (k : string) (keys : list string) : list string :=
  match keys with
  | [] => [k]
  | k' :: keys' => if String.leb k k' then k :: keys else k' :: insertKey k keys'
  end.

Definition sortedKeys (m : gmap string (list string)) : list string :=
  foldr insertKey [] (elements (dom m)).

Definition marshalTable (t : option (gmap string (list string))) : bytes :=
  match t with
  | None => bytes_of "null"
  | Some m =>
      bytes_of "{"
      ++ joinComma ((λ k, appendString k ++ bytes_of ":"
                          ++ marshalStrings (default [] (m !! k))) <$> sortedKeys m)
      ++ bytes_of "}"
  end.

(** [json.Marshal(payload)] for a payload that is an [Inputs]: it never
    fails. *)
Definition Marshal (payload : Inputs) : result bytes :=
  ok (bytes_of "{" ++ appendString "table" ++ bytes_of ":" ++ marshalTable (Table payload)
      ++ bytes_of "," ++ appendString "query" ++ bytes_of ":" ++ appendString (Query payload)
      ++ bytes_of "}").

(** *** Decode

    [Decoder.Decode] reads the first JSON value of the body and leaves what
    follows it.  The scanner is a machine over the bytes ([lex]), the values
    are built by a machine over the tokens ([parse]), and the value is then
    stored into the target ([decodeValue]). *)

Inductive token :=
| TLBrace | TRBrace | TLBracket | TRBracket | TComma | TColon
| TString (raw : bytes)        (* the bytes between the quotes *)
| TNumber (lit : bytes)
| TTrue | TFalse | TNull
| TError                       (* a byte that no JSON text has there *)
| TTruncated (str : bool).     (* the input ends inside a string or another scalar *)

Inductive numstate := NNeg | N0 | N1 | NDot | NDot0 | NE | NESign | NE0.

Inductive lexmode :=
| LTop
| LString (raw : bytes)
| LStringEsc (raw : bytes)
| LStringU (k : nat) (raw : bytes)
| LNumber (st : numstate) (lit : bytes)
| LLiteral (todo : bytes) (tok : token)
| LFail.

Definition isDigit (c : ascii) : bool := ((48 <=? byteN c) && (byteN c <=? 57))%N.

Definition isSpace (c : ascii) : bool :=
  let n := byteN c in ((n =? 32) || (n =? 9) || (n =? 13) || (n =? 10))%N.

Definition oneOf (s : string) (c : ascii) : bool :=
  bool_decide (c ∈ bytes_of s).

Definition stepTop (c : ascii) : list token * lexmode :=
  if isSpace c then ([], LTop)
  else if oneOf "{" c then ([TLBrace], LTop)
  else if oneOf "}" c then ([TRBrace], LTop)
  else if oneOf "[" c then ([TLBracket], LTop)
  else if oneOf "]" c then ([TRBracket], LTop)
  else if oneOf "," c then ([TComma], LTop)
  else if oneOf ":" c then ([TColon], LTop)
  else if Ascii.eqb c dquote then ([], LString [])
  else if oneOf "-" c then ([], LNumber NNeg [c])
  else if oneOf "0" c then ([], LNumber N0 [c])
  else if isDigit c then ([], LNumber N1 [c])
  else if oneOf "t" c then ([], LLiteral (bytes_of "rue") TTrue)
  else if oneOf "f" c then ([], LLiteral (bytes_of "alse") TFalse)
  else if oneOf "n" c then ([], LLiteral (bytes_of "ull") TNull)
  else ([TError], LFail).

Definition numAccepting (st : numstate) : bool :=
  match st with
  | N0 | N1 | NDot0 | NE0 => true
  | _ => false
  end.

Definition stepNumber (st : numstate) (c : ascii) : option numstate :=
  let frac := if oneOf "." c then Some NDot else if oneOf "eE" c then Some NE else None in
  match st with
  | NNeg => if oneOf "0" c then Some N0 else if isDigit c then Some N1 else None
  | N0 => frac
  | N1 => if isDigit c then Some N1 else frac
  | NDot => if isDigit c then Some NDot0 else None
  | NDot0 => if isDigit c then Some NDot0 else if oneOf "eE" c then Some NE else None
  | NE => if oneOf "+-" c then Some NESign else if isDigit c then Some NE0 else None
  | NESign => if isDigit c then Some NE0 else None
  | NE0 => if isDigit c then Some NE0 else None
  end.

Definition step (m : lexmode) (c : ascii) : list token * lexmode :=
  match m with
  | LTop => stepTop c
  | LString raw =>
      if Ascii.eqb c dquote then ([TString raw], LTop)
      else if Ascii.eqb c backslash then ([], LStringEsc (raw ++ [c]))
      else if (byteN c <? 32)%N then ([TError], LFail)
      else ([], LString (raw ++ [c]))
  | LStringEsc raw =>
      if Ascii.eqb c dquote || Ascii.eqb c backslash || oneOf "/bfnrt" c
      then ([], LString (raw ++ [c]))
      else if oneOf "u" c then ([], LStringU 4 (raw ++ [c]))
      else ([TError], LFail)
  | LStringU k raw =>
      match hexValue c, k with
      | Some _, S (S k') => ([], LStringU (S k') (raw ++ [c]))
      | Some _, _ => ([], LString (raw ++ [c]))
      | None, _ => ([TError], LFail)
      end
  | LNumber st lit =>
      match stepNumber st c with
      | Some st' => ([], LNumber st' (lit ++ [c]))
      | None =>
          if numAccepting st
          then let '(toks, m') := stepTop c in (TNumber lit :: toks, m')
          else ([TError], LFail)
      end
  | LLiteral todo tok =>
      match todo with
      | e :: todo' =>
          if Ascii.eqb c e
          then match todo' with
               | [] => ([tok], LTop)
               | _ => ([], LLiteral todo' tok)
               end
          else ([TError], LFail)
      | [] => ([TError], LFail)
      end
  | LFail => ([], LFail)
  end.

Definition finish (m : lexmode) : list token :=
  match m with
  | LTop | LFail => []
  | LNumber st lit => if numAccepting st then [TNumber lit] else [TTruncated false]
  | LString _ | LStringEsc _ | LStringU _ _ => [TTruncated true]
  | LLiteral _ _ => [TTruncated false]
  end.

Fixpoint lex (m : lexmode) (b : bytes) : list token :=
  match b with
  | [] => finish m
  | c :: b' => let '(toks, m') := step m c in toks ++ lex m' b'
  end.

Definition unescape (c : ascii) : option ascii :=
  if Ascii.eqb c dquote || Ascii.eqb c backslash || oneOf "/" c then Some c
  else if oneOf "b" c then Some "008"%char
  else if oneOf "f" c then Some "012"%char
  else if oneOf "n" c then Some NL
  else if oneOf "r" c then Some CR
  else if oneOf "t" c then Some "009"%char
  else None.

Definition getu4 (h1 h2 h3 h4 : ascii) : option N :=
  a ← hexValue h1; b ← hexValue h2; c ← hexValue h3; d ← hexValue h4;
  Some (((a * 16 + b) * 16 + c) * 16 + d)%N.

Definition isSurrogate (rn : N) : bool := ((55296 <=? rn) && (rn <? 57344))%N.

(** [utf16.DecodeRune] *)
Definition decodeSurrogates (r1 r2 : N) : N :=
  (if (55296 <=? r1) && (r1 <? 56320) && (56320 <=? r2) && (r2 <? 57344)
   then (r1 - 55296) * 1024 + (r2 - 56320) + 65536
   else RuneError)%N.

(** [unquote]: the string a scanned string literal stands for.  [copy] bytes
    of a rune are still to be copied. *)
Fixpoint unquote (copy : nat) (raw : bytes) : bytes :=
  match raw with
  | [] => []
  | c :: rest =>
      match copy with
      | S k => c :: unquote k rest
      | O =>
          if Ascii.eqb c backslash then
            match rest with
            | [] => []
            | e :: rest1 =>
                if oneOf "u" e then
                  match rest1 with
                  | h1 :: h2 :: h3 :: h4 :: rest2 =>
                      match getu4 h1 h2 h3 h4 with
                      | None => []
                      | Some rr =>
                          if isSurrogate rr then
                            match rest2 with
                            | b2 :: u2 :: g1 :: g2 :: g3 :: g4 :: rest3 =>
                                let rr1 :=
                                  if Ascii.eqb b2 backslash && oneOf "u" u2
                                  then default RuneError (getu4 g1 g2 g3 g4)
                                  else RuneError in
                                let dec := decodeSurrogates rr rr1 in
                                if (dec =? RuneError)%N
                                then EncodeRune RuneError ++ unquote 0 rest2
                                else EncodeRune dec ++ unquote 0 rest3
                            | _ => EncodeRune RuneError ++ unquote 0 rest2
                            end
                          else EncodeRune rr ++ unquote 0 rest2
                      end
                  | _ => []
                  end
                else
                  match unescape e with
                  | Some x => x :: unquote 0 rest1
                  | None => []
                  end
            end
          else if (byteN c <? 128)%N then c :: unquote 0 rest
          else
            match runeWidth raw with
            | O => EncodeRune RuneError ++ unquote 0 rest
            | S w => c :: unquote w rest
            end
      end
  end.

#[local] Unset Elimination Schemes.
Inductive jvalue :=
| JNull
| JBool (b : bool)
| JNumber (lit : bytes)
| JString (s : string)
| JArray (elems : list jvalue)
| JObject (members : list (string * jvalue)).
#[local] Set Elimination Schemes.

Inductive frame :=
| FArray (elems : list jvalue)
| FObject (members : list (string * jvalue)) (key : option string).

Inductive expect :=
| EValue | EValueOrClose | EKeyOrClose | EKey | EColon | ECommaOrClose.

Inductive parsed := Done (v : jvalue) | SyntaxError | UnexpectedEOF | EOF.

(** A value is complete: it is the value read, or it goes into the array or
    object around it. *)
Definition feed (v : jvalue) (stack : list frame) : jvalue + list frame :=
  match stack with
  | [] => inl v
  | FArray elems :: stack' => inr (FArray (elems ++ [v]) :: stack')
  | FObject members (Some k) :: stack' =>
      inr (FObject (members ++ [(k, v)]) None :: stack')
  | FObject members None :: stack' => inr stack
  end.

Definition maxNestingDepth : N := 10000.

Definition scalar (t : token) : option jvalue :=
  match t with
  | TString raw => Some (JString (string_of (unquote 0 raw)))
  | TNumber lit => Some (JNumber lit)
  | TTrue => Some (JBool true)
  | TFalse => Some (JBool false)
  | TNull => Some JNull
  | _ => None
  end.

Fixpoint parse (stack : list frame) (e : expect) (tokens : list token) : parsed :=
  match tokens with
  | [] =>
      match stack, e with
      | [], EValue => EOF
      | _, _ => UnexpectedEOF
      end
  | t :: rest =>
      let deep := negb (N.of_nat (length stack) <? maxNestingDepth)%N in
      match e, t with
      | (EValue | EValueOrClose), TLBracket =>
          if deep then SyntaxError else parse (FArray [] :: stack) EValueOrClose rest
      | (EValue | EValueOrClose), TLBrace =>
          if deep then SyntaxError else parse (FObject [] None :: stack) EKeyOrClose rest
      | (EValueOrClose | ECommaOrClose), TRBracket =>
          match stack with
          | FArray elems :: stack' =>
              match feed (JArray elems) stack' with
              | inl v => Done v
              | inr stack'' => parse stack'' ECommaOrClose rest
              end
          | _ => SyntaxError
          end
      | (EKeyOrClose | ECommaOrClose), TRBrace =>
          match stack with
          | FObject members None :: stack' =>
              match feed (JObject members) stack' with
              | inl v => Done v
              | inr stack'' => parse stack'' ECommaOrClose rest
              end
          | _ => SyntaxError
          end
      | (EValue | EValueOrClose), TTruncated _ => UnexpectedEOF
      | (EValue | EValueOrClose), _ =>
          match scalar t with
          | Some v =>
              match feed v stack with
              | inl v => Done v
              | inr stack' => parse stack' ECommaOrClose rest
              end
          | None => SyntaxError
          end
      | (EKeyOrClose | EKey), TString raw =>
          match stack with
          | FObject members _ :: stack' =>
              parse (FObject members (Some (string_of (unquote 0 raw))) :: stack')
                EColon rest
          | _ => SyntaxError
          end
      | (EKeyOrClose | EKey), TTruncated true => UnexpectedEOF
      | EColon, TColon => parse stack EValue rest
      | ECommaOrClose, TComma =>
          match stack with
          | FArray _ :: _ => parse stack EValue rest
          | FObject _ _ :: _ => parse stack EKey rest
          | [] => SyntaxError
          end
      | _, _ => SyntaxError
      end
  end.

(** The fields of [Response], by their JSON names. *)
Inductive field := FAnswer | FCoordinates | FCells | FAggregator.

(** [foldName]: ASCII letters in upper case, and the two runes that fold
    to ASCII letters, U+017F and U+212A, as those letters. *)
Fixpoint foldName (b : bytes) : bytes :=
  match b with
  | [] => []
  | c :: rest =>
      let n := byteN c in
      if ((97 <=? n) && (n <=? 122))%N then byte_of (n - 32) :: foldName rest
      else
        match rest with
        | c1 :: rest1 =>
            if ((n =? 197) && (byteN c1 =? 191))%N then "S"%char :: foldName rest1
            else
              match rest1 with
              | c2 :: rest2 =>
                  if ((n =? 226) && (byteN c1 =? 132) && (byteN c2 =? 170))%N
                  then "K"%char :: foldName rest2
                  else c :: foldName rest
              | [] => c :: foldName rest
              end
        | [] => c :: foldName rest
        end
  end.

(** The field a key names: the names of the fields differ in more than case,
    so matching without case finds what exact matching finds first. *)
Definition fieldOf (key : string) : option field :=
  let k := string_of (foldName (bytes_of key)) in
  if bool_decide (k = "ANSWER") then Some FAnswer
  else if bool_decide (k = "COORDINATES") then Some FCoordinates
  else if bool_decide (k = "CELLS") then Some FCells
  else if bool_decide (k = "AGGREGATOR") then Some FAggregator
  else None.

Definition kindOf (v : jvalue) : string :=
  match v with
  | JNull => "null"
  | JBool _ => "bool"
  | JNumber _ => "number"
  | JString _ => "string"
  | JArray _ => "array"
  | JObject _ => "object"
  end.

Definition typeError (v : jvalue) (name : string) : error :=
  jsonUnmarshalTypeError (kindOf v) name.

(** The decoder goes on after a value of the wrong type and reports the first
    such error at the end. *)
Definition first (e1 e2 : option error) : option error :=
  match e1 with
  | Some _ => e1
  | None => e2
  end.

Definition decodeString (name : string) (old : string) (v : jvalue)
    : string * option error :=
  match v with
  | JString s => (s, None)
  | JNull => (old, None)
  | _ => (old, Some (typeError v name))
  end.

Fixpoint digitsValue (acc : N) (b : bytes) : option N :=
  match b with
  | [] => Some acc
  | c :: b' =>
      if isDigit c then digitsValue (acc * 10 + (byteN c - 48))%N b' else None
  end.

(** [strconv.ParseInt(lit, 10, 64)] on a JSON number. *)
Definition parseInt (lit : bytes) : option Z :=
  let '(neg, ds) :=
    match lit with
    | c :: ds => if oneOf "-" c then (true, ds) else (false, lit)
    | [] => (false, [])
    end in
  match ds with
  | [] => None
  | _ =>
      n ← digitsValue 0 ds;
      let z := if (neg : bool) then (- Z.of_N n)%Z else Z.of_N n in
      if ((- 2 ^ 63 <=? z) && (z <? 2 ^ 63))%Z then Some z else None
  end.

Definition decodeInt (name : string) (old : Z) (v : jvalue) : Z * option error :=
  match v with
  | JNumber lit =>
      match parseInt lit with
      | Some n => (n, None)
      | None => (old, Some (jsonUnmarshalTypeError ("number " +:+ string_of lit) name))
      end
  | JNull => (old, None)
  | _ => (old, Some (typeError v name))
  end.

(** The elements of an array, each decoded into the element the slice had
    at its index, or into a zero value. *)
Fixpoint decodeElems {A : Type} (dec : A → jvalue → A * option error) (zero : A)
    (old : list A) (l : list jvalue) : list A * option error :=
  match l with
  | [] => ([], None)
  | v :: l' =>
      let '(x, e1) := dec (hd zero old) v in
      let '(xs, e2) := decodeElems dec zero (tl old) l' in
      (x :: xs, first e1 e2)
  end.

Definition decodeSlice {A : Type} (dec : A → jvalue → A * option error) (zero : A)
    (name : string) (old : list A) (v : jvalue) : list A * option error :=
  match v with
  | JArray l => decodeElems dec zero old l
  | JNull => ([], None)
  | _ => (old, Some (typeError v name))
  end.

Definition decodeMember (acc : Response * option error) (m : string * jvalue)
    : Response * option error :=
  let '(t, e) := acc in
  let '(key, v) := m in
  match fieldOf key with
  | Some FAnswer =>
      let '(x, e') := decodeString "answer" (Answer t) v in
      (mkResponse x (Coordinates t) (Cells t) (Aggregator t), first e e')
  | Some FCoordinates =>
      let '(x, e') :=
        decodeSlice (decodeSlice (decodeInt "coordinates") 0%Z "coordinates") []
          "coordinates" (Coordinates t) v in
      (mkResponse (Answer t) x (Cells t) (Aggregator t), first e e')
  | Some FCells =>
      let '(x, e') := decodeSlice (decodeString "cells") "" "cells" (Cells t) v in
      (mkResponse (Answer t) (Coordinates t) x (Aggregator t), first e e')
  | Some FAggregator =>
      let '(x, e') := decodeString "aggregator" (Aggregator t) v in
      (mkResponse (Answer t) (Coordinates t) (Cells t) x, first e e')
  | None => acc
  end.

Definition decodeValue (target : Response) (v : jvalue) : Response * option error :=
  match v with
  | JObject members => foldl decodeMember (target, None) members
  | JNull => (target, None)
  | _ => (target, Some (typeError v ""))
  end.

(** [json.NewDecoder(bytes.NewReader(body)).Decode(&target)] for a target
    that is a [Response]: the target after the call, and the error. *)
Definition Decode (body : bytes) (target : Response) : Response * option error :=
  match parse [] EValue (lex LTop body) with
  | Done v => decodeValue target v
  | SyntaxError => (target, Some jsonSyntaxError)
  | UnexpectedEOF => (target, Some io_ErrUnexpectedEOF)
  | EOF => (target, Some io_EOF)
  end.

End json.

(** ** Vocabulary of the statements *)

(** The records of [data] as they are written: read as [CsvToSlice] reads
    them, but by a reader whose [FieldsPerRecord] is negative, which makes no
    check of the number of fields. *)
Definition rawRecords (data : string) : list (list string) * option error :=
  csv.ReadAll (csv.set_FieldsPerRecord (-1) (tableReader data)).

(** The cells of [row] that stand under a header named [h], in order. *)
Fixpoint cellsOf (h : string) (headers row : list string) : list string :=
  match headers, row with
  | h' :: headers', v :: row' =>
      if decide (h' = h) then v :: cellsOf h headers' row'
      else cellsOf h headers' row'
  | _, _ => []
  end.

(** The cells of all rows under [h], row after row. *)
Definition columnOf (h : string) (headers : list string) (rows : list (list string))
    : list string :=
  concat (map (cellsOf h headers) rows).

(** How many header fields are named [h]. *)
Definition occurrences (h : string) (headers : list string) : nat :=
  length (filter (λ h', h' = h) headers).


(** The request [ConnectAIModel] builds for a serialized payload and a token. *)
Definition modelRequest (payloadBytes : bytes) (token : string) : http.Request :=
  http.mkRequest "POST" endpoint
    (<["Content-Type" := ["application/json"]]>
       (<["Authorization" := ["Bearer " +:+ token]]> ∅))
    payloadBytes.

Module csv_props.
Import csv.

(** What a run of the field loop keeps: it only consumes input, it leaves
    the settings alone, and without error it has cut at least one field. *)
Definition parse_post (rd : Reader) (dst : list string) (res : parsed) : Prop :=
  let '(dst', err, rd') := res in
  length (r rd') ≤ length (r rd)
  ∧ FieldsPerRecord rd' = FieldsPerRecord rd
  ∧ TrimLeadingSpace rd' = TrimLeadingSpace rd
  ∧ (err = None → length dst < length dst').

(** The same result, by a reader that expects [m] fields. *)
Definition retag (m : Z) (res : parsed) : parsed :=
  let '(dst, err, rd) := res in (dst, err, set_FieldsPerRecord m rd).

End csv_props.

(** ** Sample inputs and a mocked remote end *)

Definition lf : string := String NL EmptyString.

(** The table of section 8 of the specification. *)
Definition people_csv : string :=
  "Name,Age" +:+ lf +:+ "Alice,30" +:+ lf +:+ "Bob,25" +:+ lf.

(** A header of two fields and a data row of one. *)
Definition short_row_csv : string := "a,b" +:+ lf +:+ "1" +:+ lf.

(** The same column name twice. *)
Definition twice_csv : string := "a,a" +:+ lf +:+ "1,2" +:+ lf.

(** Two columns, written in either order. *)
Definition ab_csv : string := "a,b" +:+ lf +:+ "1,2" +:+ lf.
Definition ba_csv : string := "b,a" +:+ lf +:+ "2,1" +:+ lf.

Definition header_only_csv : string := "a,b" +:+ lf.

(** Texts are written here with a backquote for the double quote. *)
Definition quoted (s : string) : string :=
  string_of ((λ c, if Ascii.eqb c "`"%char then dquote else c) <$> bytes_of s).

Definition json_text (s : string) : bytes := bytes_of (quoted s).

Definition people_payload : Inputs :=
  mkInputs (Some {[ "Name" := ["Alice"; "Bob"]; "Age" := ["30"; "25"] ]})
    "What is Alice's age?".

Definition people_bytes : bytes :=
  json_text "{`table`:{`Age`:[`30`,`25`],`Name`:[`Alice`,`Bob`]},`query`:`What is Alice's age?`}".

(** A connector whose network answers every request with [resp]. *)
Definition mock (resp : http.Response) : AIModelConnector :=
  mkConnector (http.mkClient (λ _, ok resp)).

Definition unauthorized : http.Response :=
  http.mkResponse 401 "401 Unauthorized" (ok (json_text "{`error`:`Invalid credentials`}")).

Definition answered (body : string) : http.Response :=
  http.mkResponse 200 "200 OK" (ok (json_text body)).

(** The answer of section 8 of the specification. *)
Definition alice_answer : string :=
  "{`answer`:`30`,`coordinates`:[[0,1]],`cells`:[`30`],`aggregator`:`NONE`}".

(** Two coordinates for one cell. *)
Definition lopsided_answer : string :=
  "{`answer`:`30`,`coordinates`:[[0,1],[1,1]],`cells`:[`30`],`aggregator`:`NONE`}".

(** A body of the wrong shape: the cells are a number. *)
Definition misshapen_answer : string := "{`answer`:`30`,`cells`:5}".

(** An environment for the handler: the table of section 8 on disk, a
    request asking [query], the given token, and a network answering
    [resp]. *)
Definition env_with (query : result string) (token : string) (resp : http.Response) : Env :=
  mkEnv (λ _, ok (ok (bytes_of people_csv))) query
        (λ name, if bool_decide (name = "HUGGINGFACE_TOKEN") then token else "")
        (λ _, ok resp).

(** ** The reader terminates *)

Module csv_facts.
Import csv csv_props.


Lemma ReadSlice_length b line rest :
  ReadSlice b = (line, rest) →
  length b = length line + length rest ∧ (b ≠ [] → line ≠ []).
Proof.
  revert line rest. induction b as [|c b IH]; intros line rest; simpl.
  - intros [= <- <-]. done.
  - destruct (Ascii.eqb c NL).
    + intros [= <- <-]. done.
    + destruct (ReadSlice b) as [l1 r1]. intros [= <- <-].
      destruct (IH l1 r1 eq_refl) as [-> _]. done.
Qed.

Lemma removelast_length {A} (l : list A) : length (removelast l) = length l - 1.
Proof.
  induction l as [|x [|y l] IH]; simpl in *; try done. rewrite IH. lia.
Qed.

Lemma dropLastIf_length c b : length (dropLastIf c b) ≤ length b.
Proof.
  unfold dropLastIf. case_bool_decide; [rewrite removelast_length|]; lia.
Qed.

Lemma normalizeNL_length line : length (normalizeNL line) ≤ length line.
Proof.
  unfold normalizeNL.
  destruct (_ && _) eqn:Hc; [|lia].
  rewrite length_app, !removelast_length. simpl.
  apply andb_true_iff in Hc as [Hc _]. apply andb_true_iff in Hc as [Hc _].
  apply Nat.leb_le in Hc. lia.
Qed.

Lemma readLine_spec rd line eof rd' :
  readLine rd = (line, eof, rd') →
  length line + length (r rd') ≤ length (r rd)
  ∧ (eof = false → length (r rd') < length (r rd))
  ∧ (eof = true → line = [])
  ∧ FieldsPerRecord rd' = FieldsPerRecord rd
  ∧ TrimLeadingSpace rd' = TrimLeadingSpace rd.
Proof.
  unfold readLine. destruct (ReadSlice (r rd)) as [l0 rest] eqn:Hs.
  destruct (ReadSlice_length _ _ _ Hs) as [Hlen Hne].
  destruct (decide (l0 = [])) as [->|Hl0].
  - simpl. intros [= <- <- <-]. simpl in *.
    assert (r rd = []) as Hr by (destruct (r rd); [done | by destruct Hne]).
    rewrite Hr in *. simpl in *. repeat split; try done; lia.
  - assert (0 < length l0) as Hpos by (destruct l0; simpl; [done | lia]).
    destruct ((0 <? length l0)%nat && negb (bool_decide (last l0 = Some NL))) eqn:Hc.
    + intros [= <- <- <-]. simpl.
      pose proof (dropLastIf_length CR l0).
      pose proof (normalizeNL_length (dropLastIf CR l0)).
      repeat split; try done; lia.
    + apply andb_false_iff in Hc as [Hc|Hc]; [apply Nat.ltb_ge in Hc; lia|].
      intros [= <- <- <-]. simpl. rewrite Hc.
      pose proof (normalizeNL_length l0).
      repeat split; try done; lia.
Qed.

Lemma trimLeft_length line : length (trimLeft line) ≤ length line.
Proof.
  remember (length line) as n eqn:Hn.
  assert (length line ≤ n) as Hle by lia. clear Hn.
  revert line Hle. induction n as [|n IH]; intros line Hle.
  - destruct line; simpl in *; lia.
  - destruct line as [|c1 [|c2 [|c3 l3]]]; simpl in *; try lia.
    + destruct (isSpace1 c1); simpl; lia.
    + destruct (isSpace1 c1).
      { etrans; [apply (IH [c2]); simpl; lia | simpl; lia]. }
      destruct (isSpace2 c1 c2); simpl; lia.
    + destruct (isSpace1 c1).
      { etrans; [apply (IH (c2 :: c3 :: l3)); simpl; lia | simpl; lia]. }
      destruct (isSpace2 c1 c2).
      { etrans; [apply (IH (c3 :: l3)); simpl; lia | simpl; lia]. }
      destruct (isSpace3 c1 c2 c3); simpl; [|lia].
      etrans; [apply (IH l3); lia | lia].
Qed.

Lemma IndexByte_lt b c i : IndexByte b c = Some i → i < length b.
Proof.
  revert i. induction b as [|x b IH]; intros i; simpl; [done|].
  destruct (Ascii.eqb x c).
  - intros [= <-]. lia.
  - destruct (IndexByte b c) as [j|]; simpl; [|done].
    intros [= <-]. specialize (IH j eq_refl). lia.
Qed.


Lemma parse_post_id rd dst dst' err :
  (err = None → length dst < length dst') → parse_post rd dst (dst', err, rd).
Proof. intros H. repeat split; done. Qed.

Lemma parse_post_trans rd0 rd dst0 dst res :
  length (r rd) ≤ length (r rd0) →
  FieldsPerRecord rd = FieldsPerRecord rd0 →
  TrimLeadingSpace rd = TrimLeadingSpace rd0 →
  length dst0 ≤ length dst →
  parse_post rd dst res → parse_post rd0 dst0 res.
Proof.
  destruct res as [[dst' err] rd']. unfold parse_post.
  intros ? ? ? ? (? & ? & ? & Hd). repeat split; try congruence; try lia.
  intros He. specialize (Hd He). lia.
Qed.

Lemma parse_spec fuel :
  (∀ rd recLine posLine line dst res,
      parseField fuel rd recLine posLine line dst = Some res →
      parse_post rd dst res)
  ∧ (∀ rd recLine posLine line dst cur res,
      quotedField fuel rd recLine posLine line dst cur = Some res →
      parse_post rd dst res).
Proof.
  induction fuel as [|fuel [IHp IHq]]; [split; intros; discriminate|].
  split.
  - intros rd recLine posLine line dst res. simpl.
    set (line' := if TrimLeadingSpace rd then trimLeft line else line).
    destruct (negb (bool_decide (head line' = Some dquote))).
    + destruct (IndexByte line' comma) as [i|].
      * destruct (IndexByte (take i line') dquote).
        { intros [= <-]. by apply parse_post_id. }
        intros H. apply IHp in H. revert H.
        apply parse_post_trans; try done. rewrite length_app. simpl. lia.
      * destruct (IndexByte _ dquote); intros [= <-]; apply parse_post_id; try done.
        intros _. rewrite length_app. simpl. lia.
    + intros H. by apply IHq in H.
  - intros rd recLine posLine line dst cur res. simpl.
    destruct (IndexByte line dquote) as [i|].
    + destruct (bool_decide (head _ = Some dquote));
        [|destruct (bool_decide (head _ = Some comma))].
      * intros H. by apply IHq in H.
      * intros H. apply IHp in H. revert H.
        apply parse_post_trans; try done. rewrite length_app. simpl. lia.
      * destruct (_ =? _)%nat; intros [= <-]; apply parse_post_id; try done.
        intros _. rewrite length_app. simpl. lia.
    + destruct (0 <? length line)%nat.
      * destruct (readLine rd) as [[l1 e1] rd1] eqn:Hr.
        apply readLine_spec in Hr as (Hlen & _ & _ & Hf & Ht).
        intros H. apply IHq in H. revert H.
        apply parse_post_trans; try done. lia.
      * intros [= <-]. by apply parse_post_id.
Qed.

Lemma parse_total fuel :
  (∀ rd recLine posLine line dst,
      length line + length (r rd) < fuel →
      is_Some (parseField fuel rd recLine posLine line dst))
  ∧ (∀ rd recLine posLine line dst cur,
      length line + length (r rd) < fuel →
      is_Some (quotedField fuel rd recLine posLine line dst cur)).
Proof.
  induction fuel as [|fuel [IHp IHq]]; [split; intros; lia|].
  split.
  - intros rd recLine posLine line dst Hlt. simpl.
    assert (length (if TrimLeadingSpace rd then trimLeft line else line) ≤ length line) as Hle.
    { destruct (TrimLeadingSpace rd); [apply trimLeft_length | done]. }
    set (line' := if TrimLeadingSpace rd then trimLeft line else line) in *.
    destruct (negb (bool_decide (head line' = Some dquote))) eqn:Hq.
    + destruct (IndexByte line' comma) as [i|] eqn:Hi.
      * destruct (IndexByte (take i line') dquote); [done|].
        apply IHp. apply IndexByte_lt in Hi. rewrite length_drop. lia.
      * destruct (IndexByte _ dquote); done.
    + apply IHq. apply negb_false_iff, bool_decide_eq_true in Hq.
      destruct line' as [|c l]; [done|]. simpl in *. rewrite drop_0. lia.
  - intros rd recLine posLine line dst cur Hlt. simpl.
    destruct (IndexByte line dquote) as [i|] eqn:Hi.
    + apply IndexByte_lt in Hi.
      destruct (bool_decide (head _ = Some dquote));
        [|destruct (bool_decide (head _ = Some comma))].
      * apply IHq. rewrite !length_drop. lia.
      * apply IHp. rewrite !length_drop. lia.
      * destruct (_ =? _)%nat; done.
    + destruct (0 <? length line)%nat eqn:Hpos; [|done].
      apply Nat.ltb_lt in Hpos.
      destruct (readLine rd) as [[l1 e1] rd1] eqn:Hr.
      apply readLine_spec in Hr as (Hlen & _).
      apply IHq. lia.
Qed.

Lemma nextLine_spec fuel rd line eof rd' :
  nextLine fuel rd = Some (line, eof, rd') →
  length line + length (r rd') ≤ length (r rd)
  ∧ (eof = false → length (r rd') < length (r rd))
  ∧ FieldsPerRecord rd' = FieldsPerRecord rd
  ∧ TrimLeadingSpace rd' = TrimLeadingSpace rd.
Proof.
  revert rd. induction fuel as [|fuel IH]; intros rd; simpl; [done|].
  destruct (readLine rd) as [[l1 e1] rd1] eqn:Hr.
  apply readLine_spec in Hr as (Hlen & Heof & _ & Hf & Ht).
  destruct (negb e1 && (length l1 =? lengthNL l1)%nat) eqn:Hskip.
  - intros H. apply IH in H as (? & ? & ? & ?).
    repeat split; try congruence; try lia.
    intros He. apply andb_true_iff in Hskip as [Hskip _].
    specialize (Heof ltac:(by destruct e1)). intuition lia.
  - intros [= <- <- <-]. done.
Qed.

Lemma nextLine_total fuel rd : length (r rd) < fuel → is_Some (nextLine fuel rd).
Proof.
  revert rd. induction fuel as [|fuel IH]; intros rd Hlt; simpl; [lia|].
  destruct (readLine rd) as [[l1 e1] rd1] eqn:Hr.
  apply readLine_spec in Hr as (Hlen & Heof & _).
  destruct (negb e1 && (length l1 =? lengthNL l1)%nat) eqn:Hskip; [|done].
  apply IH. apply andb_true_iff in Hskip as [He _].
  specialize (Heof ltac:(by destruct e1)). lia.
Qed.

Lemma readRecord_spec fuel rd dst err rd' :
  readRecord fuel rd = Some (dst, err, rd') →
  length (r rd') ≤ length (r rd)
  ∧ TrimLeadingSpace rd' = TrimLeadingSpace rd
  ∧ (err = None →
       length (r rd') < length (r rd) ∧ 0 < length dst
       ∧ if (0 <? FieldsPerRecord rd)%Z
         then FieldsPerRecord rd' = FieldsPerRecord rd
              ∧ Z.of_nat (length dst) = FieldsPerRecord rd
         else if (FieldsPerRecord rd =? 0)%Z
              then FieldsPerRecord rd' = Z.of_nat (length dst)
              else FieldsPerRecord rd' = FieldsPerRecord rd).
Proof.
  unfold readRecord.
  destruct (nextLine fuel rd) as [[[line eof] rd1]|] eqn:Hn; simpl; [|done].
  apply nextLine_spec in Hn as (Hlen & Heof & Hf & Ht).
  destruct eof.
  { intros [= <- <- <-]. split; [lia|]. split; done. }
  specialize (Heof eq_refl).
  destruct (parseField fuel rd1 _ _ line []) as [[[dst1 perr] rd2]|] eqn:Hp;
    simpl; [|done].
  apply parse_spec in Hp as (Hlen2 & Hf2 & Ht2 & Hdst). simpl in Hdst.
  rewrite Hf2, Hf.
  destruct (0 <? FieldsPerRecord rd)%Z; [|destruct (FieldsPerRecord rd =? 0)%Z].
  - destruct (negb (bool_decide _) && bool_decide (perr = None)) eqn:Hc;
      intros [= <- <- <-]; (split; [lia|]); (split; [congruence|]); [done|].
    destruct perr; [done|]. intros _. specialize (Hdst eq_refl).
    rewrite andb_true_r in Hc. apply negb_false_iff, bool_decide_eq_true in Hc.
    repeat split; try lia; congruence.
  - intros [= <- <- <-]. simpl. (split; [lia|]); (split; [congruence|]).
    destruct perr; [done|]. intros _. specialize (Hdst eq_refl).
    repeat split; lia.
  - intros [= <- <- <-]. (split; [lia|]); (split; [congruence|]).
    destruct perr; [done|]. intros _. specialize (Hdst eq_refl).
    repeat split; try lia; congruence.
Qed.

Lemma readRecord_total fuel rd : length (r rd) < fuel → is_Some (readRecord fuel rd).
Proof.
  intros Hlt. unfold readRecord.
  destruct (nextLine_total fuel rd Hlt) as [[[line eof] rd1] Hn]. rewrite Hn. simpl.
  apply nextLine_spec in Hn as (Hlen & _).
  destruct eof; [done|].
  destruct (proj1 (parse_total fuel) rd1 (numLine rd1) (numLine rd1) line [])
    as [[[dst1 perr] rd2] Hp]; [lia|].
  rewrite Hp. simpl.
  repeat match goal with |- context [if ?c then _ else _] => destruct c end; done.
Qed.

Lemma ReadAll_loop_total fuel rd records :
  length (r rd) + 1 < fuel → is_Some (ReadAll_loop fuel rd records).
Proof.
  revert rd records. induction fuel as [|fuel IH]; intros rd records Hlt; [lia|].
  simpl.
  destruct (readRecord_total fuel rd) as [[[dst err] rd1] Hr]; [lia|].
  rewrite Hr. simpl. apply readRecord_spec in Hr as (_ & _ & Hok).
  destruct err as [[]|]; try done.
  apply IH. specialize (Hok eq_refl). lia.
Qed.

(** More fuel changes no result. *)
Lemma parse_mono fuel :
  (∀ rd recLine posLine line dst res fuel',
      parseField fuel rd recLine posLine line dst = Some res → fuel ≤ fuel' →
      parseField fuel' rd recLine posLine line dst = Some res)
  ∧ (∀ rd recLine posLine line dst cur res fuel',
      quotedField fuel rd recLine posLine line dst cur = Some res → fuel ≤ fuel' →
      quotedField fuel' rd recLine posLine line dst cur = Some res).
Proof.
  induction fuel as [|fuel [IHp IHq]]; [split; intros; discriminate|].
  split.
  - intros rd recLine posLine line dst res [|fuel'] Hrun Hle; [lia|].
    revert Hrun. simpl.
    set (line' := if TrimLeadingSpace rd then trimLeft line else line).
    destruct (negb _); [|intros; apply IHq; [done | lia]].
    destruct (IndexByte line' comma) as [i|]; [|done].
    destruct (IndexByte _ dquote); [done|]. intros; apply IHp; [done | lia].
  - intros rd recLine posLine line dst cur res [|fuel'] Hrun Hle; [lia|].
    revert Hrun. simpl.
    destruct (IndexByte line dquote) as [i|].
    + destruct (bool_decide _); [intros; apply IHq; [done | lia]|].
      destruct (bool_decide _); [intros; apply IHp; [done | lia]|]. done.
    + destruct (0 <? length line)%nat; [|done].
      destruct (readLine rd) as [[l1 e1] rd1]. intros; apply IHq; [done | lia].
Qed.

Lemma nextLine_mono fuel rd res fuel' :
  nextLine fuel rd = Some res → fuel ≤ fuel' → nextLine fuel' rd = Some res.
Proof.
  revert rd fuel'. induction fuel as [|fuel IH]; intros rd [|fuel'] Hrun Hle;
    try done; [lia|].
  revert Hrun. simpl. destruct (readLine rd) as [[l1 e1] rd1].
  destruct (_ && _); [|done]. intros; apply IH; [done | lia].
Qed.

Lemma readRecord_mono fuel rd res fuel' :
  readRecord fuel rd = Some res → fuel ≤ fuel' → readRecord fuel' rd = Some res.
Proof.
  unfold readRecord. intros Hrun Hle.
  destruct (nextLine fuel rd) as [[[line eof] rd1]|] eqn:Hn; [|done].
  rewrite (nextLine_mono _ _ _ fuel' Hn Hle). simpl in *.
  destruct eof; [done|].
  destruct (parseField fuel rd1 _ _ line []) as [res1|] eqn:Hp; [|done].
  by rewrite (proj1 (parse_mono fuel) _ _ _ _ _ _ fuel' Hp Hle).
Qed.

Lemma ReadAll_loop_mono fuel rd records res fuel' :
  ReadAll_loop fuel rd records = Some res → fuel ≤ fuel' →
  ReadAll_loop fuel' rd records = Some res.
Proof.
  revert rd records fuel'.
  induction fuel as [|fuel IH]; intros rd records [|fuel'] Hrun Hle; try done; [lia|].
  revert Hrun. simpl.
  destruct (readRecord fuel rd) as [[[dst err] rd1]|] eqn:Hr; [|done].
  rewrite (readRecord_mono _ _ _ fuel' Hr) by lia. simpl.
  destruct err as [[]|]; try done. intros; apply IH; [done | lia].
Qed.

(** [ReadAll] is the result of the loop: the fuel never runs out. *)
Lemma ReadAll_loop_enough rd :
  ReadAll_loop (ReadAll_fuel rd) rd [] = Some (ReadAll rd).
Proof.
  unfold ReadAll.
  destruct (ReadAll_loop_total (ReadAll_fuel rd) rd []) as [res ->]; [|done].
  unfold ReadAll_fuel. lia.
Qed.

(** ** The check of the number of fields

    A reader whose [FieldsPerRecord] is negative makes no check: it reads the
    records as they are written.  The reader of [CsvToSlice] accepts an input
    exactly when that one does and all records have as many fields as the
    first. *)



Lemma set_FieldsPerRecord_twice m n rd :
  set_FieldsPerRecord m (set_FieldsPerRecord n rd) = set_FieldsPerRecord m rd.
Proof. done. Qed.

Lemma set_FieldsPerRecord_same rd :
  set_FieldsPerRecord (FieldsPerRecord rd) rd = rd.
Proof. by destruct rd. Qed.

Lemma readLine_setFPR m rd :
  readLine (set_FieldsPerRecord m rd) =
  let '(line, eof, rd') := readLine rd in (line, eof, set_FieldsPerRecord m rd').
Proof.
  unfold readLine. simpl. destruct (ReadSlice (r rd)) as [l0 rest].
  by destruct (_ && _).
Qed.

Lemma parse_setFPR m fuel :
  (∀ rd recLine posLine line dst,
      parseField fuel (set_FieldsPerRecord m rd) recLine posLine line dst =
      retag m <$> parseField fuel rd recLine posLine line dst)
  ∧ (∀ rd recLine posLine line dst cur,
      quotedField fuel (set_FieldsPerRecord m rd) recLine posLine line dst cur =
      retag m <$> quotedField fuel rd recLine posLine line dst cur).
Proof.
  induction fuel as [|fuel [IHp IHq]]; [done|].
  split.
  - intros rd recLine posLine line dst. simpl.
    set (line' := if TrimLeadingSpace rd then trimLeft line else line).
    destruct (negb _); [|apply IHq].
    destruct (IndexByte line' comma) as [i|].
    + destruct (IndexByte _ dquote); [done | apply IHp].
    + by destruct (IndexByte _ dquote).
  - intros rd recLine posLine line dst cur. simpl.
    destruct (IndexByte line dquote) as [i|].
    + destruct (bool_decide _); [apply IHq|].
      destruct (bool_decide _); [apply IHp|].
      by destruct (_ =? _)%nat.
    + destruct (0 <? length line)%nat; [|done].
      rewrite readLine_setFPR. destruct (readLine rd) as [[l1 e1] rd1].
      apply IHq.
Qed.

Lemma nextLine_setFPR m fuel rd :
  nextLine fuel (set_FieldsPerRecord m rd) =
  (λ '(line, eof, rd'), (line, eof, set_FieldsPerRecord m rd')) <$> nextLine fuel rd.
Proof.
  revert rd. induction fuel as [|fuel IH]; intros rd; simpl; [done|].
  rewrite readLine_setFPR. destruct (readLine rd) as [[l1 e1] rd1].
  destruct (_ && _); [apply IH | done].
Qed.

(** A record read without error (or the end of the input) is read the same
    way when the number of fields is not checked. *)
Lemma readRecord_unchecked fuel rd dst err rd' :
  readRecord fuel rd = Some (dst, err, rd') →
  err = None ∨ err = Some io_EOF →
  readRecord fuel (set_FieldsPerRecord (-1) rd) =
  Some (dst, err, set_FieldsPerRecord (-1) rd').
Proof.
  unfold readRecord. rewrite nextLine_setFPR.
  destruct (nextLine fuel rd) as [[[line eof] rd1]|]; simpl; [|done].
  destruct eof.
  { by intros [= <- <- <-] _. }
  rewrite (proj1 (parse_setFPR (-1) fuel)).
  destruct (parseField fuel rd1 _ _ line []) as [[[dst1 perr] rd2]|]; simpl; [|done].
  assert (∀ rd3, Some (dst1, csvParseError <$> perr, rd3) = Some (dst, err, rd') →
    set_FieldsPerRecord (-1) rd3 = set_FieldsPerRecord (-1) rd2 →
    Some (dst1, csvParseError <$> perr, set_FieldsPerRecord (-1) rd2) =
    Some (dst, err, set_FieldsPerRecord (-1) rd')) as Hgen.
  { intros rd3 [= <- <- <-] Hrd. by rewrite Hrd. }
  destruct (0 <? FieldsPerRecord rd2)%Z; [|destruct (FieldsPerRecord rd2 =? 0)%Z].
  - destruct (negb _ && bool_decide (perr = None)) eqn:Hc; intros H1 H2.
    + injection H1 as <- <- <-. by destruct H2.
    + by apply (Hgen _ H1).
  - intros H1 H2. by apply (Hgen _ H1).
  - intros H1 H2. by apply (Hgen _ H1).
Qed.

Lemma ReadAll_loop_unchecked fuel rd acc records :
  ReadAll_loop fuel rd acc = Some (records, None) →
  ReadAll_loop fuel (set_FieldsPerRecord (-1) rd) acc = Some (records, None).
Proof.
  revert rd acc. induction fuel as [|fuel IH]; intros rd acc; simpl; [done|].
  destruct (readRecord fuel rd) as [[[dst err] rd1]|] eqn:Hr; simpl; [|done].
  destruct err as [[]|]; try done.
  - intros [= <-]. by erewrite readRecord_unchecked; eauto.
  - intros H. erewrite readRecord_unchecked; eauto. simpl. by apply IH.
Qed.

(** The records collected by an accepting run all have the number of fields
    the reader expects. *)
Lemma ReadAll_loop_counts fuel rd acc records :
  ReadAll_loop fuel rd acc = Some (records, None) →
  (0 < FieldsPerRecord rd)%Z →
  Forall (λ rec, Z.of_nat (length rec) = FieldsPerRecord rd) acc →
  Forall (λ rec, Z.of_nat (length rec) = FieldsPerRecord rd) records.
Proof.
  revert rd acc. induction fuel as [|fuel IH]; intros rd acc; simpl; [done|].
  destruct (readRecord fuel rd) as [[[dst err] rd1]|] eqn:Hr; simpl; [|done].
  apply readRecord_spec in Hr as (_ & _ & Hok).
  destruct err as [[]|]; try done.
  - by intros [= <-].
  - intros H Hpos Hacc. destruct (Hok eq_refl) as (_ & _ & Hf).
    destruct (Z.ltb_spec 0 (FieldsPerRecord rd)); [|lia].
    destruct Hf as [Hf Hd]. rewrite <- Hf. eapply IH; [done | lia |].
    rewrite Hf. apply Forall_app. split; [done|]. by constructor.
Qed.

Lemma ReadAll_loop_first fuel rd first rows :
  ReadAll_loop fuel rd [] = Some (first :: rows, None) →
  FieldsPerRecord rd = 0%Z →
  0 < length first ∧ Forall (λ row, length row = length first) rows.
Proof.
  destruct fuel as [|fuel]; simpl; [done|].
  destruct (readRecord fuel rd) as [[[dst err] rd1]|] eqn:Hr; simpl; [|done].
  apply readRecord_spec in Hr as (_ & _ & Hok).
  destruct err as [[]|]; try done.
  intros H Hz. destruct (Hok eq_refl) as (_ & Hpos & Hf).
  rewrite Hz in Hf. simpl in Hf.
  apply ReadAll_loop_counts in H as Hall; [|lia|].
  - apply Forall_cons in Hall as [H1 H2]. rewrite Hf in H1, H2.
    apply Nat2Z.inj in H1. split; [lia|].
    eapply Forall_impl; [done|]. simpl. intros. lia.
  - constructor; [done | constructor].
Qed.

Local Ltac same_record :=
  do 2 eexists; split; [reflexivity|]; split; [reflexivity|]; by left.

(** Conversely, where the unchecked reader reads a record, the checking one
    reads the same record, or rejects it for its number of fields. *)
Lemma readRecord_checked fuel rd dst err rd1 :
  readRecord fuel (set_FieldsPerRecord (-1) rd) = Some (dst, err, rd1) →
  ∃ err' rd1',
    readRecord fuel rd = Some (dst, err', rd1')
    ∧ set_FieldsPerRecord (-1) rd1' = rd1
    ∧ (err' = err
       ∨ err = None
         ∧ ∃ l, err' = Some (csvParseError (mkParseError l l ErrFieldCount))).
Proof.
  unfold readRecord. rewrite nextLine_setFPR.
  destruct (nextLine fuel rd) as [[[line eof] rd0]|]; simpl; [|done].
  destruct eof.
  { intros [= <- <- <-]. same_record. }
  rewrite (proj1 (parse_setFPR (-1) fuel)).
  destruct (parseField fuel rd0 _ _ line []) as [[[dst1 perr] rd2]|]; simpl; [|done].
  intros [= <- <- <-].
  destruct (0 <? FieldsPerRecord rd2)%Z; [|destruct (FieldsPerRecord rd2 =? 0)%Z].
  - destruct (negb _ && bool_decide (perr = None)) eqn:Hc; [|same_record].
    apply andb_true_iff in Hc as [_ Hc]. apply bool_decide_eq_true in Hc as ->.
    do 2 eexists. split; [done|]. split; [done|]. right. eauto.
  - same_record.
  - same_record.
Qed.

Lemma ReadAll_loop_checked fuel rd acc records :
  ReadAll_loop fuel (set_FieldsPerRecord (-1) rd) acc = Some (records, None) →
  ReadAll_loop fuel rd acc = Some (records, None)
  ∨ ∃ l, ReadAll_loop fuel rd acc =
         Some ([], Some (csvParseError (mkParseError l l ErrFieldCount))).
Proof.
  revert rd acc. induction fuel as [|fuel IH]; intros rd acc; simpl; [done|].
  destruct (readRecord fuel (set_FieldsPerRecord (-1) rd)) as [[[dst err] rd1]|] eqn:Hr;
    simpl; [|done].
  apply readRecord_checked in Hr as (err' & rd1' & -> & <- & Herr). simpl.
  destruct Herr as [-> | [-> [l ->]]].
  - destruct err as [[]|]; try done; [by left | apply IH].
  - intros _. right. eauto.
Qed.

(** A record read without check is accepted by the checking reader when it
    has the number of fields that one expects. *)
Lemma readRecord_accepts fuel rd dst rd1 :
  readRecord fuel (set_FieldsPerRecord (-1) rd) = Some (dst, None, rd1) →
  ((0 < FieldsPerRecord rd)%Z → Z.of_nat (length dst) = FieldsPerRecord rd) →
  ∃ rd1', readRecord fuel rd = Some (dst, None, rd1')
          ∧ set_FieldsPerRecord (-1) rd1' = rd1.
Proof.
  unfold readRecord. rewrite nextLine_setFPR.
  destruct (nextLine fuel rd) as [[[line eof] rd0]|] eqn:Hn; simpl; [|done].
  destruct eof; [done|].
  rewrite (proj1 (parse_setFPR (-1) fuel)).
  destruct (parseField fuel rd0 _ _ line []) as [[[dst1 perr] rd2]|] eqn:Hp;
    simpl; [|done].
  intros [= <- Hperr <-] Hcount. destruct perr; [done|]. clear Hperr.
  apply nextLine_spec in Hn as (_ & _ & Hf0 & _).
  apply parse_spec in Hp as (_ & Hf2 & _ & _).
  destruct (Z.ltb_spec 0 (FieldsPerRecord rd2)) as [Hpos|Hneg].
  - rewrite bool_decide_true by (rewrite Hf2, Hf0; apply Hcount; lia).
    simpl. eauto.
  - destruct (FieldsPerRecord rd2 =? 0)%Z; eauto.
Qed.

Lemma ReadAll_loop_extends fuel rd acc records :
  ReadAll_loop fuel rd acc = Some (records, None) → ∃ new, records = acc ++ new.
Proof.
  revert rd acc. induction fuel as [|fuel IH]; intros rd acc; simpl; [done|].
  destruct (readRecord fuel rd) as [[[dst err] rd1]|]; simpl; [|done].
  destruct err as [[]|]; try done.
  - intros [= <-]. exists []. by rewrite app_nil_r.
  - intros H. apply IH in H as [new ->]. exists (dst :: new).
    by rewrite <- app_assoc.
Qed.

Lemma ReadAll_loop_accepts fuel rd acc records :
  ReadAll_loop fuel (set_FieldsPerRecord (-1) rd) acc = Some (records, None) →
  (0 < FieldsPerRecord rd)%Z →
  Forall (λ rec, Z.of_nat (length rec) = FieldsPerRecord rd) records →
  ReadAll_loop fuel rd acc = Some (records, None).
Proof.
  revert rd acc. induction fuel as [|fuel IH]; intros rd acc; simpl; [done|].
  destruct (readRecord fuel (set_FieldsPerRecord (-1) rd)) as [[[dst err] rd1]|] eqn:Hr;
    simpl; [|done].
  destruct err as [[]|]; try done.
  - intros [= <-] Hpos Hall.
    apply readRecord_checked in Hr as (err' & rd1' & -> & _ & [-> | [? _]]); done.
  - intros Hloop Hpos Hall.
    destruct (ReadAll_loop_extends _ _ _ _ Hloop) as [new ->].
    apply readRecord_accepts in Hr as (rd1' & Hr' & <-).
    + rewrite Hr'. simpl. apply readRecord_spec in Hr' as (_ & _ & Hok).
      destruct (Hok eq_refl) as (_ & _ & Hf).
      destruct (Z.ltb_spec 0 (FieldsPerRecord rd)); [|lia].
      destruct Hf as [Hf _]. apply IH; [done | lia | by rewrite Hf].
    + intros _. rewrite Forall_app in Hall. destruct Hall as [Hall _].
      rewrite Forall_app in Hall. destruct Hall as [_ Hdst].
      by inversion Hdst.
Qed.

(** The reader that takes its count from the first record accepts records
    that are all as long as the first. *)
Lemma ReadAll_loop_accepts_first fuel rd first rows :
  ReadAll_loop fuel (set_FieldsPerRecord (-1) rd) [] = Some (first :: rows, None) →
  FieldsPerRecord rd = 0%Z →
  Forall (λ row, length row = length first) rows →
  ReadAll_loop fuel rd [] = Some (first :: rows, None).
Proof.
  destruct fuel as [|fuel]; simpl; [done|].
  destruct (readRecord fuel (set_FieldsPerRecord (-1) rd)) as [[[dst err] rd1]|] eqn:Hr;
    simpl; [|done].
  destruct err as [[]|]; try done.
  intros Hloop Hz Hall.
  destruct (ReadAll_loop_extends _ _ _ _ Hloop) as [new Hnew].
  simpl in Hnew. injection Hnew as -> ->.
  apply readRecord_accepts in Hr as (rd1' & Hr' & <-); [|lia].
  rewrite Hr'. simpl. apply readRecord_spec in Hr' as (_ & _ & Hok).
  destruct (Hok eq_refl) as (_ & Hpos & Hf). rewrite Hz in Hf. simpl in Hf.
  apply ReadAll_loop_accepts; [done | lia |].
  rewrite Hf. constructor; [done|].
  eapply Forall_impl; [done|]. simpl. intros ? ->. done.
Qed.

(** The errors of the loop are parse errors: the end of the input is no
    error of [ReadAll]. *)
Lemma readRecord_error fuel rd dst e rd1 :
  readRecord fuel rd = Some (dst, Some e, rd1) →
  e = io_EOF ∨ ∃ pe, e = csvParseError pe.
Proof.
  unfold readRecord.
  destruct (nextLine fuel rd) as [[[line eof] rd0]|]; simpl; [|done].
  destruct eof; [intros [= _ <- _]; by left|].
  destruct (parseField fuel rd0 _ _ line []) as [[[dst1 perr] rd2]|]; simpl; [|done].
  destruct (0 <? FieldsPerRecord rd2)%Z; [|destruct (FieldsPerRecord rd2 =? 0)%Z].
  - destruct (negb _ && _); [intros [= _ <- _]; right; eauto|].
    destruct perr; intros [= _ <- _]. right; eauto.
  - destruct perr; intros [= _ <- _]. right; eauto.
  - destruct perr; intros [= _ <- _]. right; eauto.
Qed.

Lemma ReadAll_loop_error fuel rd acc records e :
  ReadAll_loop fuel rd acc = Some (records, Some e) →
  records = [] ∧ ∃ pe, e = csvParseError pe.
Proof.
  revert rd acc. induction fuel as [|fuel IH]; intros rd acc; simpl; [done|].
  destruct (readRecord fuel rd) as [[[dst err] rd1]|] eqn:Hr; simpl; [|done].
  destruct err as [e'|]; [|apply IH].
  apply readRecord_error in Hr as [-> | [pe ->]]; [done|].
  intros [= <- <-]. eauto.
Qed.

(** Any larger bound on the number of turns gives the result of [ReadAll]. *)
Lemma ReadAll_any_fuel rd fuel :
  ReadAll_fuel rd ≤ fuel → ReadAll_loop fuel rd [] = Some (ReadAll rd).
Proof. intros Hle. eapply ReadAll_loop_mono; [apply ReadAll_loop_enough | done]. Qed.

End csv_facts.

(** ** The columns CsvToSlice builds *)

Section table_facts.
Implicit Types (headers row : list string) (rows : list (list string)).
Implicit Types (result : gmap string (list string)) (h : string).

Lemma initColumns_lookup_gen headers result h :
  foldl (λ result header, <[header := []]> result) result headers !! h =
  if decide (h ∈ headers) then Some [] else result !! h.
Proof.
  revert result. induction headers as [|h0 headers IH]; intros result; cbn [foldl].
  - rewrite decide_False; [done | apply not_elem_of_nil].
  - rewrite IH. destruct (decide (h ∈ headers)) as [Hin|Hnin].
    + rewrite decide_True; [done | apply elem_of_cons; by right].
    + destruct (decide (h0 = h)) as [->|Hne].
      * rewrite lookup_insert_eq. rewrite decide_True; [done | apply elem_of_cons; by left].
      * rewrite lookup_insert_ne by done. rewrite decide_False; [done|].
        intros [->|?]%elem_of_cons; done.
Qed.

Lemma initColumns_lookup headers h :
  initColumns headers !! h = if decide (h ∈ headers) then Some [] else None.
Proof. unfold initColumns. by rewrite initColumns_lookup_gen, lookup_empty. Qed.

Lemma rangeRow_spec headers row : ∀ i result,
  (∀ h, h ∈ headers → is_Some (result !! h)) →
  i + length row ≤ length headers →
  ∃ result', rangeRow headers result i row = Some result'
    ∧ ∀ h, result' !! h = (λ col, col ++ cellsOf h (drop i headers) row) <$> result !! h.
Proof.
  induction row as [|v row IH]; intros i result Hkeys Hlen; simpl in *.
  - exists result. split; [done|]. intros h.
    destruct (result !! h) as [col|]; simpl; [|done].
    destruct (drop i headers); simpl; by rewrite app_nil_r.
  - destruct (lookup_lt_is_Some_2 headers i) as [hi Hi]; [lia|].
    unfold appendCell at 1. rewrite Hi. simpl.
    destruct (Hkeys hi) as [col0 Hcol0]; [by eapply list_elem_of_lookup_2|].
    rewrite Hcol0. simpl.
    destruct (IH (S i) (<[hi := col0 ++ [v]]> result)) as (result' & Hrun & Hres).
    { intros h Hh. destruct (decide (hi = h)) as [->|Hne].
      - rewrite lookup_insert_eq. eauto.
      - rewrite lookup_insert_ne by done. auto. }
    { lia. }
    exists result'. split; [done|]. intros h. rewrite Hres.
    rewrite (drop_S _ _ _ Hi). simpl.
    destruct (decide (hi = h)) as [->|Hne].
    + rewrite lookup_insert_eq, Hcol0. simpl. by rewrite <- app_assoc.
    + by rewrite lookup_insert_ne.
Qed.

Lemma rangeRows_spec headers rows : ∀ result,
  (∀ h, h ∈ headers → is_Some (result !! h)) →
  Forall (λ row, length row ≤ length headers) rows →
  ∃ result', rangeRows headers result rows = Some result'
    ∧ ∀ h, result' !! h = (λ col, col ++ columnOf h headers rows) <$> result !! h.
Proof.
  induction rows as [|row rows IH]; intros result Hkeys Hlen; simpl.
  - exists result. split; [done|]. intros h. unfold columnOf. simpl.
    destruct (result !! h); simpl; by rewrite ?app_nil_r.
  - apply Forall_cons in Hlen as [Hrow Hrows].
    destruct (rangeRow_spec headers row 0 result) as (result1 & Hrun1 & Hres1);
      [done | simpl; lia |].
    rewrite Hrun1. simpl.
    destruct (IH result1) as (result' & Hrun & Hres); [|done|].
    { intros h Hh. rewrite Hres1. destruct (Hkeys h Hh) as [col ->]. simpl. eauto. }
    exists result'. split; [done|]. intros h. rewrite Hres, Hres1.
    unfold columnOf. simpl. rewrite drop_0.
    destruct (result !! h); simpl; by rewrite ?app_assoc.
Qed.

(** The table built from headers and rows no longer than the headers: one
    column per header name, holding the cells under that name. *)
Lemma rangeRows_columns headers rows :
  Forall (λ row, length row ≤ length headers) rows →
  ∃ result, rangeRows headers (initColumns headers) rows = Some result
    ∧ ∀ h, result !! h =
           if decide (h ∈ headers) then Some (columnOf h headers rows) else None.
Proof.
  intros Hlen.
  destruct (rangeRows_spec headers rows (initColumns headers)) as (result & Hrun & Hres);
    [|done|].
  { intros h Hh. rewrite initColumns_lookup, decide_True by done. eauto. }
  exists result. split; [done|]. intros h. rewrite Hres, initColumns_lookup.
  by destruct (decide (h ∈ headers)).
Qed.

Lemma cellsOf_length h headers row :
  length headers ≤ length row →
  length (cellsOf h headers row) = occurrences h headers.
Proof.
  unfold occurrences. revert row.
  induction headers as [|h' headers IH]; intros row Hlen; simpl; [done|].
  destruct row as [|v row]; simpl in *; [lia|].
  rewrite filter_cons. destruct (decide (h' = h)); simpl; rewrite IH; lia.
Qed.

Lemma columnOf_length h headers rows :
  Forall (λ row, length row = length headers) rows →
  length (columnOf h headers rows) = length rows * occurrences h headers.
Proof.
  unfold columnOf. induction 1 as [|row rows Hrow _ IH]; simpl; [done|].
  rewrite length_app, IH, cellsOf_length; lia.
Qed.

Lemma cellsOf_not_in h headers row : h ∉ headers → cellsOf h headers row = [].
Proof.
  revert row. induction headers as [|h' headers IH]; intros row Hnin; simpl; [done|].
  destruct row as [|v row]; [done|].
  apply not_elem_of_cons in Hnin as [Hne Hnin].
  rewrite decide_False by done. by apply IH.
Qed.

(** Under distinct headers a row has exactly one cell under each header. *)
Lemma cellsOf_NoDup headers : ∀ row i h v,
  NoDup headers → headers !! i = Some h → row !! i = Some v →
  cellsOf h headers row = [v].
Proof.
  induction headers as [|h' headers IH]; intros row i h v Hnd Hi Hv; [done|].
  destruct row as [|v' row]; [done|].
  apply NoDup_cons in Hnd as [Hnin Hnd]. simpl.
  destruct i as [|i]; simpl in *.
  - injection Hi as ->. injection Hv as ->.
    rewrite decide_True by done. by rewrite cellsOf_not_in.
  - rewrite decide_False; [by eapply IH|].
    intros ->. apply Hnin. by eapply list_elem_of_lookup_2.
Qed.

Lemma columnOf_NoDup headers rows i h :
  NoDup headers → headers !! i = Some h →
  Forall (λ row, length row = length headers) rows →
  length (columnOf h headers rows) = length rows
  ∧ ∀ j row, rows !! j = Some row →
      is_Some (row !! i) ∧ columnOf h headers rows !! j = row !! i.
Proof.
  intros Hnd Hi Hall. unfold columnOf.
  induction Hall as [|row rows Hrow _ IH]; simpl; [done|].
  destruct (lookup_lt_is_Some_2 row i) as [v Hv].
  { rewrite Hrow. by eapply lookup_lt_Some. }
  rewrite (cellsOf_NoDup headers row i h v) by done. simpl.
  destruct IH as [IHlen IHcol]. split; [by rewrite IHlen|].
  intros [|j] row'; simpl.
  - intros [= <-]. eauto.
  - apply IHcol.
Qed.

Lemma occurrences_elem_of h headers : 1 ≤ occurrences h headers → h ∈ headers.
Proof.
  unfold occurrences. intros Hocc.
  destruct (filter (λ h', h' = h) headers) as [|h0 l] eqn:Hf; [simpl in Hocc; lia|].
  assert (h0 ∈ filter (λ h', h' = h) headers) as Hh0 by (rewrite Hf; constructor).
  by apply list_elem_of_filter in Hh0 as [-> ?].
Qed.

Lemma difference_size_le h headers :
  size ((list_to_set headers : gset string) ∖ {[h]})
  ≤ size (list_to_set headers : gset string).
Proof.
  apply subseteq_size. intros k Hk. by apply elem_of_difference in Hk as [? _].
Qed.

Lemma size_list_to_set_le headers :
  size (list_to_set headers : gset string) ≤ length headers.
Proof.
  induction headers as [|h0 headers IH]; simpl.
  - done.
  - rewrite size_union_alt, size_singleton.
    pose proof (difference_size_le h0 headers). lia.
Qed.

(** A name written twice leaves fewer names than header fields. *)
Lemma size_list_to_set_twice h headers :
  2 ≤ occurrences h headers →
  size (list_to_set headers : gset string) < length headers.
Proof.
  unfold occurrences.
  induction headers as [|h0 headers IH]; simpl; [lia|].
  rewrite filter_cons. destruct (decide (h0 = h)) as [->|Hne]; simpl; intros Hocc.
  - assert (h ∈ headers) as Hin by (apply occurrences_elem_of; unfold occurrences; lia).
    replace ({[h]} ∪ list_to_set headers : gset string) with
      (list_to_set headers : gset string).
    + pose proof (size_list_to_set_le headers). lia.
    + symmetry. apply subseteq_union_1_L, singleton_subseteq_l.
      by apply elem_of_list_to_set.
  - specialize (IH Hocc). rewrite size_union_alt, size_singleton.
    pose proof (difference_size_le h0 headers). lia.
Qed.

Lemma elem_of_cellsOf v h headers : ∀ row,
  v ∈ cellsOf h headers row ↔ ∃ i, headers !! i = Some h ∧ row !! i = Some v.
Proof.
  induction headers as [|h' headers IH]; intros row; simpl.
  - split; [by intros ?%elem_of_nil | by intros (i & ? & _)].
  - destruct row as [|v' row]; [split; [by intros ?%elem_of_nil | by intros (i & _ & ?)]|].
    destruct (decide (h' = h)) as [->|Hne].
    + rewrite elem_of_cons, IH. split.
      * intros [-> | (i & ? & ?)]; [by exists 0 | by exists (S i)].
      * intros ([|i] & Hh & Hv); simpl in *; [left; congruence | right; eauto].
    + rewrite IH. split.
      * intros (i & ? & ?). by exists (S i).
      * intros ([|i] & Hh & Hv); simpl in *; [congruence | eauto].
Qed.

Lemma elem_of_columnOf v h headers rows :
  v ∈ columnOf h headers rows
  ↔ ∃ row i, row ∈ rows ∧ headers !! i = Some h ∧ row !! i = Some v.
Proof.
  unfold columnOf. induction rows as [|row rows IH]; simpl.
  - split; [by intros ?%elem_of_nil | by intros (? & ? & ?%elem_of_nil & _)].
  - rewrite elem_of_app, IH, elem_of_cellsOf. split.
    + intros [(i & ? & ?) | (row' & i & ? & ? & ?)].
      * exists row, i. split; [by left | done].
      * exists row', i. split; [by right | done].
    + intros (row' & i & [-> | ?]%elem_of_cons & ? & ?); [left | right]; eauto.
Qed.










End table_facts.

(** ** What CsvToSlice accepts *)

Section loader_facts.
Import csv csv_facts.

(** The records [CsvToSlice] accepts have as many fields as the header. *)
Lemma ReadAll_table_uniform data headers rows :
  ReadAll (tableReader data) = (headers :: rows, None) →
  0 < length headers ∧ Forall (λ row, length row = length headers) rows.
Proof.
  intros Hread. pose proof (ReadAll_loop_enough (tableReader data)) as Hloop.
  rewrite Hread in Hloop. by apply ReadAll_loop_first in Hloop.
Qed.

(** They are the records as written. *)
Lemma ReadAll_table_raw data records :
  ReadAll (tableReader data) = (records, None) → rawRecords data = (records, None).
Proof.
  intros Hread. pose proof (ReadAll_loop_enough (tableReader data)) as Hloop.
  rewrite Hread in Hloop. apply ReadAll_loop_unchecked in Hloop.
  unfold rawRecords, ReadAll.
  by replace (ReadAll_fuel (set_FieldsPerRecord (-1) (tableReader data)))
    with (ReadAll_fuel (tableReader data)); [rewrite Hloop|].
Qed.

(** Where the records as written are not all as long as the first, the
    reader of [CsvToSlice] fails on the number of fields. *)
Lemma ReadAll_table_ragged data headers rows :
  rawRecords data = (headers :: rows, None) →
  ¬ Forall (λ row, length row = length headers) rows →
  ∃ l, ReadAll (tableReader data) =
       ([], Some (csvParseError (mkParseError l l ErrFieldCount))).
Proof.
  intros Hraw Hragged.
  pose proof (ReadAll_loop_enough (set_FieldsPerRecord (-1) (tableReader data))) as Hloop.
  fold (rawRecords data) in Hloop. rewrite Hraw in Hloop.
  change (ReadAll_fuel _) with (ReadAll_fuel (tableReader data)) in Hloop.
  apply ReadAll_loop_checked in Hloop as [Hok | [l Hbad]].
  - apply ReadAll_loop_first in Hok as [_ Hall]; done.
  - exists l. unfold ReadAll. by rewrite Hbad.
Qed.

(** With a header and rows as long as it, [CsvToSlice] returns the table of
    the columns, one per header name. *)
Lemma CsvToSlice_accepts data headers rows :
  ReadAll (tableReader data) = (headers :: rows, None) → rows ≠ [] →
  ∃ result, CsvToSlice data = Returns (Some result, None)
    ∧ ∀ h, result !! h =
           if decide (h ∈ headers) then Some (columnOf h headers rows) else None.
Proof.
  intros Hread Hrows.
  destruct (ReadAll_table_uniform _ _ _ Hread) as [_ Hall].
  destruct (rangeRows_columns headers rows) as (result & Hrun & Hres).
  { eapply Forall_impl; [done|]. simpl. intros. lia. }
  exists result. split; [|done].
  unfold CsvToSlice. rewrite Hread. destruct rows as [|row rows]; [done|].
  change (length (headers :: row :: rows) <? 2)%nat with false.
  cbv beta iota. by rewrite Hrun.
Qed.

End loader_facts.

(** ** The cases of ConnectAIModel *)

Ltac run_io :=
  unfold Client_Do, ioutil_ReadAll, Body_Close, emit, mbind, IO_bind, mret, IO_ret;
  cbn beta iota.

Section connector_facts.
Context {Payload : Type}.
Variable json_Marshal : Payload → result bytes.
Variable json_Decode : bytes → Response → Response * option error.
Implicit Types (c : AIModelConnector) (payload : Payload) (token : string).
Implicit Types (log : list event) (resp : http.Response).

Local Abbreviation Connect := (ConnectAIModel json_Marshal json_Decode).

(** All there is to a call: what it returns and logs, case by case. *)
Lemma ConnectAIModel_cases c payload token log :
  Connect c payload token log =
  match json_Marshal payload with
  | failed err => ((Response_zero, Some err), log)
  | ok payloadBytes =>
      let req := modelRequest payloadBytes token in
      match http.RoundTrip (Client c) req with
      | failed err => ((Response_zero, Some err), log ++ [Sent req])
      | ok resp =>
          if bool_decide (http.StatusCode resp ≠ http.StatusOK) then
            ((Response_zero,
              Some (errorf_status (http.StatusCode resp) (http.Status resp))),
             log ++ [Sent req; BodyClosed])
          else
            match http.RespBody resp with
            | failed err =>
                ((Response_zero, Some err), log ++ [Sent req; BodyRead; BodyClosed])
            | ok respBody =>
                match json_Decode respBody Response_zero with
                | (_, Some err) =>
                    ((Response_zero, Some err), log ++ [Sent req; BodyRead; BodyClosed])
                | (response, None) =>
                    ((response, None), log ++ [Sent req; BodyRead; BodyClosed])
                end
            end
      end
  end.
Proof.
  unfold ConnectAIModel, readAnswer.
  destruct (json_Marshal payload) as [payloadBytes|err]; [|done].
  cbn [http.NewRequest]. unfold http.Header_Set.
  cbn [http.Method http.URL http.Header http.Body].
  fold (modelRequest payloadBytes token). run_io.
  destruct (http.RoundTrip (Client c) _) as [resp|err]; [|done].
  destruct (bool_decide (http.StatusCode resp ≠ http.StatusOK)).
  { by rewrite <- app_assoc. }
  destruct (http.RespBody resp) as [respBody|err].
  - destruct (json_Decode respBody Response_zero) as [response [err|]];
      by rewrite <- !app_assoc.
  - by rewrite <- !app_assoc.
Qed.


End connector_facts.

(** ** CsvToSlice never panics *)

Section total_facts.
Import csv csv_facts.

(** The reader lets no row longer than the header through, so no index into
    the headers is out of range. *)
Lemma CsvToSlice_returns data : ∃ v, CsvToSlice data = Returns v.
Proof.
  destruct (ReadAll (tableReader data)) as [records [err|]] eqn:Hread.
  - unfold CsvToSlice. rewrite Hread. eauto.
  - destruct records as [|headers [|row rows]].
    + unfold CsvToSlice. rewrite Hread. simpl. eauto.
    + unfold CsvToSlice. rewrite Hread. simpl. eauto.
    + destruct (CsvToSlice_accepts data headers (row :: rows) Hread) as (result & -> & _);
        [done | eauto].
Qed.

(** A table comes only from records that are, as written, all as long as
    the header. *)
Lemma CsvToSlice_table_uniform data result err :
  CsvToSlice data = Returns (Some result, err) →
  ∃ headers rows,
    rawRecords data = (headers :: rows, None)
    ∧ Forall (λ row, length row = length headers) rows.
Proof.
  unfold CsvToSlice.
  destruct (ReadAll (tableReader data)) as [records [e|]] eqn:Hread; [done|].
  destruct (length records <? 2)%nat; [done|].
  destruct records as [|headers rows]; [done|].
  intros _. exists headers, rows. split.
  - by apply ReadAll_table_raw.
  - by destruct (ReadAll_table_uniform _ _ _ Hread).
Qed.

(** No order of the columns can be read off the table so as to give back
    the order of the header: two inputs with the headers in opposite orders
    give the same table. *)
Lemma table_keeps_no_order (order : gmap string (list string) → list string) :
  ∃ data headers rows result,
    ReadAll (tableReader data) = (headers :: rows, None)
    ∧ CsvToSlice data = Returns (Some result, None)
    ∧ order result ≠ headers.
Proof.
  destruct (decide (order {[ "a" := ["1"]; "b" := ["2"] ]} = ["a"; "b"])) as [Hab|Hab].
  - exists ba_csv, ["b"; "a"], [["2"; "1"]], {[ "a" := ["1"]; "b" := ["2"] ]}.
    split; [vm_compute; reflexivity|]. split; [vm_compute; reflexivity|].
    rewrite Hab. discriminate.
  - exists ab_csv, ["a"; "b"], [["1"; "2"]], {[ "a" := ["1"]; "b" := ["2"] ]}.
    split; [vm_compute; reflexivity|]. split; [vm_compute; reflexivity|]. done.
Qed.

(** Records that are, as written, all as long as the first are accepted as
    they are. *)
Lemma ReadAll_table_accepts data headers rows :
  rawRecords data = (headers :: rows, None) →
  Forall (λ row, length row = length headers) rows →
  ReadAll (tableReader data) = (headers :: rows, None).
Proof.
  intros Hraw Hall.
  pose proof (ReadAll_loop_enough (set_FieldsPerRecord (-1) (tableReader data))) as Hloop.
  fold (rawRecords data) in Hloop. rewrite Hraw in Hloop.
  change (ReadAll_fuel _) with (ReadAll_fuel (tableReader data)) in Hloop.
  apply ReadAll_loop_accepts_first in Hloop; [|done..].
  unfold ReadAll. by rewrite Hloop.
Qed.

(** The reader fails with parse errors only. *)
Lemma ReadAll_table_error data records e :
  ReadAll (tableReader data) = (records, Some e) → ∃ pe, e = csvParseError pe.
Proof.
  intros Hread. pose proof (ReadAll_loop_enough (tableReader data)) as Hloop.
  rewrite Hread in Hloop. by apply ReadAll_loop_error in Hloop as [_ ?].
Qed.

(** Where [CsvToSlice] returns a table, the reader has accepted a header and
    at least one data row, and the error is nil. *)
Lemma CsvToSlice_success_inv data result err :
  CsvToSlice data = Returns (Some result, err) →
  ∃ headers rows,
    ReadAll (tableReader data) = (headers :: rows, None) ∧ rows ≠ [] ∧ err = None.
Proof.
  unfold CsvToSlice.
  destruct (ReadAll (tableReader data)) as [records [e|]] eqn:Hread; [done|].
  destruct records as [|headers [|row rows]]; [done..|].
  change (length (headers :: row :: rows) <? 2)%nat with false. cbv beta iota.
  destruct (rangeRows headers _ _); [|done].
  intros [= _ <-]. by exists headers, (row :: rows).
Qed.

(** Serializing an [Inputs] never fails. *)
Lemma Marshal_ok (payload : Inputs) : ∃ payloadBytes, json.Marshal payload = ok payloadBytes.
Proof. unfold json.Marshal. eauto. Qed.

End total_facts.

(** ** The handler, once it reaches the connector *)

Section handler_facts.
Variable json_Marshal : Inputs → result bytes.
Variable json_Decode : bytes → Response → Response * option error.

Lemma ask_connects env log rowData table query :
  os_Open env "data-series.csv" = ok (ok rowData) →
  CsvToSlice (string_of rowData) = Returns (table, None) →
  BindJSON env = ok query →
  os_Getenv env "HUGGINGFACE_TOKEN" ≠ "" →
  ask json_Marshal json_Decode env log =
  let '(response, err, log') :=
    ConnectAIModel json_Marshal json_Decode
      (mkConnector (http.mkClient (network env))) (mkInputs table query)
      (os_Getenv env "HUGGINGFACE_TOKEN") log in
  (match err with
   | Some err =>
       Returns (reply_error 500 "Error connecting to AI model: %v" (Some err))
   | None => Returns (reply_json 200 response)
   end, log').
Proof.
  intros Hopen Hcsv Hbind Htoken. unfold ask. rewrite Hopen, Hcsv, Hbind.
  rewrite bool_decide_false by done. run_io.
  destruct (ConnectAIModel _ _ _ _ _ log) as [[response [err|]] log']; done.
Qed.

(** The handler leaves the log alone unless it reaches the connector. *)
Lemma ask_quiet env log :
  (ask json_Marshal json_Decode env log).2 ≠ log →
  ∃ rowData table query,
    os_Open env "data-series.csv" = ok (ok rowData)
    ∧ CsvToSlice (string_of rowData) = Returns (table, None)
    ∧ BindJSON env = ok query
    ∧ os_Getenv env "HUGGINGFACE_TOKEN" ≠ "".
Proof.
  unfold ask.
  destruct (os_Open env "data-series.csv") as [[rowData|]|]; [|done..].
  destruct (CsvToSlice (string_of rowData)) as [[table [err|]]|] eqn:Hcsv; [done| |done].
  destruct (BindJSON env) as [query|]; [|done].
  case_bool_decide as Htoken; [done|]. intros _. by exists rowData, table, query.
Qed.

End handler_facts.

(** ** The examples of section 8 of the specification *)

Example people_table :
  CsvToSlice people_csv =
  Returns (Some {[ "Name" := ["Alice"; "Bob"]; "Age" := ["30"; "25"] ]}, None).
Proof. vm_compute. reflexivity. Qed.

(** Quoted fields, with commas, doubled quotes and line breaks in them. *)
Example quoted_fields :
  csv.ReadAll (tableReader
    ("id,text" +:+ lf
     +:+ quoted "1,`a,b`" +:+ lf
     +:+ quoted "2,`say ``hi``" +:+ lf
     +:+ quoted "twice`" +:+ lf)) =
  ([["id"; "text"]; ["1"; "a,b"];
    ["2"; quoted "say `hi`" +:+ lf +:+ "twice"]], None).
Proof. vm_compute. reflexivity. Qed.

(** Leading white space is trimmed, empty lines are skipped, and a line may
    end in carriage return and newline. *)
Example trimmed_fields :
  csv.ReadAll (tableReader
    ("Name,  Age" +:+ String CR lf +:+ lf +:+ " Alice, 30" +:+ String CR lf)) =
  ([["Name"; "Age"]; ["Alice"; "30"]], None).
Proof. vm_compute. reflexivity. Qed.

(** A quote in a field that does not start with one is an error. *)
Example bare_quote :
  csv.ReadAll (tableReader ("a,b" +:+ lf +:+ quoted "1,2`" +:+ lf)) =
  ([], Some (csvParseError (mkParseError 2 2 ErrBareQuote))).
Proof. vm_compute. reflexivity. Qed.

(** A row longer than the header is rejected like a shorter one. *)
Example long_row :
  CsvToSlice ("a,b" +:+ lf +:+ "1,2,3" +:+ lf) =
  Returns (None, Some (csvParseError (mkParseError 2 2 ErrFieldCount))).
Proof. vm_compute. reflexivity. Qed.

(** The loops of [CsvToSlice] alone, on rows that the reader does not let
    through: a short row would leave the last columns shorter, a long one
    would index the headers out of range. *)
Example loops_on_short_row :
  rangeRows ["a"; "b"] (initColumns ["a"; "b"]) [["1"; "2"]; ["3"]] =
  Some {[ "a" := ["1"; "3"]; "b" := ["2"] ]}.
Proof. vm_compute. reflexivity. Qed.

Example loops_on_long_row :
  rangeRows ["a"; "b"] (initColumns ["a"; "b"]) [["1"; "2"; "3"]] = None.
Proof. vm_compute. reflexivity. Qed.

Example Marshal_people : json.Marshal people_payload = ok people_bytes.
Proof. vm_compute. reflexivity. Qed.

Example Decode_alice :
  json.Decode (json_text alice_answer) Response_zero =
  (mkResponse "30" [[0; 1]%Z] ["30"] "NONE", None).
Proof. vm_compute. reflexivity. Qed.

(** The decoder fills the answer in, then fails on the cells. *)
Example Decode_misshapen :
  json.Decode (json_text misshapen_answer) Response_zero =
  (mkResponse "30" [] [] "", Some (jsonUnmarshalTypeError "number" "cells")).
Proof. vm_compute. reflexivity. Qed.

Example round_trip :
  (ConnectAIModel json.Marshal json.Decode (mock (answered alice_answer))
     people_payload "secret" []).1 =
  (mkResponse "30" [[0; 1]%Z] ["30"] "NONE", None).
Proof. vm_compute. reflexivity. Qed.

Example not_json :
  (ConnectAIModel json.Marshal json.Decode (mock (answered "not json"))
     people_payload "secret" []).1 =
  (Response_zero, Some jsonSyntaxError).
Proof. vm_compute. reflexivity. Qed.

(** With a token the request of the handler goes out and is answered. *)
Example ask_with_token :
  ask json.Marshal json.Decode
    (env_with (ok "What is Alice's age?") "secret" (answered alice_answer)) [] =
  (Returns (reply_json 200 (mkResponse "30" [[0; 1]%Z] ["30"] "NONE")),
   [Sent (modelRequest people_bytes "secret"); BodyRead; BodyClosed]).
Proof. vm_compute. reflexivity. Qed.

(** ** The claims *)

(** C1. An input with a data row of fewer fields than the header row is
    rejected: CsvToSlice returns no table and an error, the field count
    error of the CSV reader. *)
Theorem CsvToSlice_rejects_short_row (data : string) (headers : list string)
    (rows : list (list string)) (row : list string) :
  rawRecords data = (headers :: rows, None) →
  row ∈ rows →
  length row < length headers →
  ∃ l, CsvToSlice data =
       Returns (None, Some (csvParseError (mkParseError l l ErrFieldCount))).
Proof.
  intros Hraw Hrow Hshort.
  destruct (ReadAll_table_ragged data headers rows Hraw) as [l Hread].
  { intros Hall. rewrite Forall_forall in Hall. specialize (Hall row Hrow). lia. }
  exists l. unfold CsvToSlice. by rewrite Hread.
Qed.

(** A header of two fields and a data row of one. *)
Lemma CsvToSlice_rejects_short_row_witness :
  ∃ l, CsvToSlice short_row_csv =
       Returns (None, Some (csvParseError (mkParseError l l ErrFieldCount))).
Proof.
  apply (CsvToSlice_rejects_short_row short_row_csv ["a"; "b"] [["1"]] ["1"]).
  - vm_compute. reflexivity.
  - constructor.
  - simpl. lia.
Defined.

(** C2, as stated, fails where a column name occurs twice in the header: the
    input is well formed, has one data row, and the one column of the table
    has two cells. *)
Lemma CsvToSlice_duplicate_header_lengths :
  csv.ReadAll (tableReader twice_csv) = ([["a"; "a"]; ["1"; "2"]], None)
  ∧ CsvToSlice twice_csv = Returns (Some {[ "a" := ["1"; "2"] ]}, None)
  ∧ length ["1"; "2"] ≠ length [["1"; "2"]].
Proof. split; [|split]; [vm_compute; reflexivity .. | simpl; lia]. Qed.

(** C2, amended. For a well-formed input with a header row of pairwise
    distinct names and at least one data row, CsvToSlice returns a table with
    exactly the header names as columns; the column named by the i-th header
    field has one cell per data row, and its j-th cell is the i-th field of
    the j-th data row. *)
Theorem CsvToSlice_distinct_headers (data : string) (headers : list string)
    (rows : list (list string)) :
  csv.ReadAll (tableReader data) = (headers :: rows, None) →
  rows ≠ [] →
  NoDup headers →
  ∃ result,
    CsvToSlice data = Returns (Some result, None)
    ∧ (∀ h, h ∉ headers → result !! h = None)
    ∧ ∀ i h, headers !! i = Some h →
        ∃ col, result !! h = Some col
          ∧ length col = length rows
          ∧ ∀ j row, rows !! j = Some row →
              is_Some (row !! i) ∧ col !! j = row !! i.
Proof.
  intros Hread Hrows Hnd.
  destruct (CsvToSlice_accepts data headers rows Hread Hrows) as (result & Hrun & Hres).
  destruct (ReadAll_table_uniform _ _ _ Hread) as [_ Hall].
  exists result. split; [done|]. split.
  - intros h Hh. by rewrite Hres, decide_False.
  - intros i h Hi. exists (columnOf h headers rows).
    rewrite Hres, decide_True by (by eapply list_elem_of_lookup_2).
    split; [done|]. by apply columnOf_NoDup.
Qed.

(** The table of Alice and Bob. *)
Lemma CsvToSlice_distinct_headers_witness :
  ∃ result,
    CsvToSlice people_csv = Returns (Some result, None)
    ∧ (∀ h, h ∉ ["Name"; "Age"] → result !! h = None)
    ∧ ∀ i h, ["Name"; "Age"] !! i = Some h →
        ∃ col, result !! h = Some col
          ∧ length col = length [["Alice"; "30"]; ["Bob"; "25"]]
          ∧ ∀ j row, [["Alice"; "30"]; ["Bob"; "25"]] !! j = Some row →
              is_Some (row !! i) ∧ col !! j = row !! i.
Proof.
  apply (CsvToSlice_distinct_headers people_csv).
  - vm_compute. reflexivity.
  - discriminate.
  - apply (bool_decide_unpack _). vm_compute. reflexivity.
Defined.

(** C3, as stated, fails: the table is a map and keeps no order.  Two inputs
    whose header rows name the same columns in opposite orders give the very
    same table, and the payload sent for it lists the columns by sorted
    name, whatever the header. *)
Lemma CsvToSlice_forgets_header_order :
  csv.ReadAll (tableReader ab_csv) = ([["a"; "b"]; ["1"; "2"]], None)
  ∧ csv.ReadAll (tableReader ba_csv) = ([["b"; "a"]; ["2"; "1"]], None)
  ∧ CsvToSlice ab_csv = Returns (Some {[ "a" := ["1"]; "b" := ["2"] ]}, None)
  ∧ CsvToSlice ba_csv = CsvToSlice ab_csv
  ∧ json.Marshal (mkInputs (Some {[ "a" := ["1"]; "b" := ["2"] ]}) "q") =
    ok (json_text "{`table`:{`a`:[`1`],`b`:[`2`]},`query`:`q`}").
Proof. repeat split; vm_compute; reflexivity. Qed.

(** C3, amended. For a well-formed input with at least one data row, the
    columns of the table CsvToSlice returns are named by exactly the names of
    the header row; their order is not kept. *)
Theorem CsvToSlice_column_names (data : string) (headers : list string)
    (rows : list (list string)) :
  csv.ReadAll (tableReader data) = (headers :: rows, None) →
  rows ≠ [] →
  ∃ result,
    CsvToSlice data = Returns (Some result, None)
    ∧ dom result = list_to_set headers.
Proof.
  intros Hread Hrows.
  destruct (CsvToSlice_accepts data headers rows Hread Hrows) as (result & Hrun & Hres).
  exists result. split; [done|].
  apply set_eq. intros h. rewrite elem_of_dom, elem_of_list_to_set, Hres.
  destruct (decide (h ∈ headers)); split; intros Hh; try done.
Qed.

(** The header b,a. *)
Lemma CsvToSlice_column_names_witness :
  ∃ result,
    CsvToSlice ba_csv = Returns (Some result, None)
    ∧ dom result = list_to_set ["b"; "a"].
Proof.
  apply (CsvToSlice_column_names ba_csv ["b"; "a"] [["2"; "1"]]).
  - vm_compute. reflexivity.
  - discriminate.
Defined.

(** C4. An input that parses to fewer than two records is rejected:
    CsvToSlice returns no table and an error. *)
Theorem CsvToSlice_needs_data_row (data : string) (records : list (list string)) :
  csv.ReadAll (tableReader data) = (records, None) →
  length records < 2 →
  CsvToSlice data =
  Returns (None, Some (errors_New "CSV file must contain at least one row of data")).
Proof.
  intros Hread Hlen. unfold CsvToSlice. rewrite Hread.
  apply Nat.ltb_lt in Hlen. by rewrite Hlen.
Qed.

(** The empty input, and a header row alone. *)
Lemma CsvToSlice_needs_data_row_witness :
  CsvToSlice EmptyString =
    Returns (None, Some (errors_New "CSV file must contain at least one row of data"))
  ∧ CsvToSlice header_only_csv =
    Returns (None, Some (errors_New "CSV file must contain at least one row of data")).
Proof.
  split.
  - apply (CsvToSlice_needs_data_row EmptyString []); [vm_compute; reflexivity | simpl; lia].
  - apply (CsvToSlice_needs_data_row header_only_csv [["a"; "b"]]);
      [vm_compute; reflexivity | simpl; lia].
Defined.

(** C5, as stated, fails where the body of the request does not bind: the
    token is empty, the table has loaded, and the reply is the status 400
    with Invalid request, which is not the error of the missing token. *)
Lemma ask_empty_token_unbound_query :
  os_Getenv (env_with (failed io_EOF) "" (answered alice_answer)) "HUGGINGFACE_TOKEN"
  = ""
  ∧ ask json.Marshal json.Decode
      (env_with (failed io_EOF) "" (answered alice_answer)) []
    = (Returns (reply_error 400 "Invalid request" None), [])
  ∧ reply_error 400 "Invalid request" None
    ≠ reply_error 500 "HUGGINGFACE_TOKEN is not set in the environment" None.
Proof. split; [|split]; [reflexivity | vm_compute; reflexivity | discriminate]. Qed.

(** C5, amended. When the token is the empty string, the handler sends no
    request (it logs nothing at all) and its reply is an error; when
    moreover the CSV file has been read and converted and the query of the
    request is bound, that error is the one of the missing token, with the
    status 500. *)
Theorem ask_empty_token (json_Marshal : Inputs → result bytes)
    (json_Decode : bytes → Response → Response * option error)
    (env : Env) (log : list event) :
  os_Getenv env "HUGGINGFACE_TOKEN" = "" →
  (ask json_Marshal json_Decode env log).2 = log
  ∧ (∃ code msg cause,
       (ask json_Marshal json_Decode env log).1 = Returns (reply_error code msg cause))
  ∧ (∀ rowData table query,
       os_Open env "data-series.csv" = ok (ok rowData) →
       CsvToSlice (string_of rowData) = Returns (table, None) →
       BindJSON env = ok query →
       (ask json_Marshal json_Decode env log).1 =
       Returns (reply_error 500 "HUGGINGFACE_TOKEN is not set in the environment" None)).
Proof.
  intros Htoken. unfold ask.
  destruct (os_Open env "data-series.csv") as [[rowData|err]|err];
    [|by (split; [|split]; eauto) ..].
  destruct (CsvToSlice_returns (string_of rowData)) as [[table [err|]] Hcsv];
    rewrite Hcsv.
  { split; [done|]. split; [by eauto|].
    intros ? ? ? [= <-] Hc. rewrite Hcsv in Hc. discriminate. }
  destruct (BindJSON env) as [query|err]; [|by (split; [|split]; eauto)].
  rewrite Htoken. rewrite bool_decide_true by done.
  split; [done|]. split; [by eauto|]. done.
Qed.

(** A request that loads the table and binds its query, with no token set. *)
Lemma ask_empty_token_witness :
  (ask json.Marshal json.Decode
     (env_with (ok "What is Alice's age?") "" (answered alice_answer)) []).2 = []
  ∧ (ask json.Marshal json.Decode
     (env_with (ok "What is Alice's age?") "" (answered alice_answer)) []).1 =
    Returns (reply_error 500 "HUGGINGFACE_TOKEN is not set in the environment" None).
Proof.
  destruct (ask_empty_token json.Marshal json.Decode
              (env_with (ok "What is Alice's age?") "" (answered alice_answer)) []
              eq_refl) as (Hlog & _ & Hreply).
  split; [exact Hlog|].
  apply (Hreply (bytes_of people_csv)
           (Some {[ "Name" := ["Alice"; "Bob"]; "Age" := ["30"; "25"] ]})
           "What is Alice's age?"); [reflexivity | vm_compute; reflexivity | reflexivity].
Defined.

(** C6. When the remote answers with a status that is not 200, the call
    fails with an error that carries the status code in decimal and the
    status text; the body is neither read nor decoded (the log shows the
    request and the closing of the body only, and neither the body nor the
    decoder occurs in the result).  And a call returns without error only
    when the status is 200. *)
Theorem ConnectAIModel_rejects_status {Payload : Type}
    (json_Marshal : Payload → result bytes)
    (json_Decode : bytes → Response → Response * option error)
    (c : AIModelConnector) (payload : Payload) (token : string)
    (payloadBytes : bytes) (resp : http.Response) :
  json_Marshal payload = ok payloadBytes →
  http.RoundTrip (Client c) (modelRequest payloadBytes token) = ok resp →
  (http.StatusCode resp ≠ 200%Z →
   ∀ log, ConnectAIModel json_Marshal json_Decode c payload token log =
     ((Response_zero,
       Some (errorString ("failed to get valid response: "
                          +:+ pretty (http.StatusCode resp) +:+ " "
                          +:+ http.Status resp))),
      log ++ [Sent (modelRequest payloadBytes token); BodyClosed]))
  ∧ (∀ log response log',
       ConnectAIModel json_Marshal json_Decode c payload token log
       = ((response, None), log') →
       http.StatusCode resp = 200%Z).
Proof.
  intros Hm Hr. split.
  - intros Hs log. rewrite ConnectAIModel_cases, Hm. cbn zeta. rewrite Hr.
    by rewrite bool_decide_true.
  - intros log response log'. rewrite ConnectAIModel_cases, Hm. cbn zeta. rewrite Hr.
    case_bool_decide as Hs; [done|]. intros _.
    by destruct (decide (http.StatusCode resp = 200%Z)).
Qed.

(** A remote end that answers 401. *)
Lemma ConnectAIModel_rejects_status_witness :
  ConnectAIModel json.Marshal json.Decode (mock unauthorized) people_payload "secret" [] =
  ((Response_zero,
    Some (errorString "failed to get valid response: 401 401 Unauthorized")),
   [Sent (modelRequest people_bytes "secret"); BodyClosed]).
Proof.
  destruct (ConnectAIModel_rejects_status json.Marshal json.Decode
              (mock unauthorized) people_payload "secret" people_bytes unauthorized
              Marshal_people eq_refl) as [Hrejects _].
  apply (Hrejects ltac:(discriminate) []).
Defined.

(** C7. Whenever a call returns an error, the Response it returns with it is
    the zero value: also when the decoder fails after it has filled its
    target in part. *)
Theorem ConnectAIModel_error_zero {Payload : Type}
    (json_Marshal : Payload → result bytes)
    (json_Decode : bytes → Response → Response * option error)
    (c : AIModelConnector) (payload : Payload) (token : string)
    (log : list event) (response : Response) (err : error) (log' : list event) :
  ConnectAIModel json_Marshal json_Decode c payload token log
  = ((response, Some err), log') →
  response = Response_zero.
Proof.
  rewrite ConnectAIModel_cases.
  destruct (json_Marshal payload) as [payloadBytes|]; [|by intros [= <- _ _]].
  cbn zeta. destruct (http.RoundTrip (Client c) _) as [resp|]; [|by intros [= <- _ _]].
  destruct (bool_decide _); [by intros [= <- _ _]|].
  destruct (http.RespBody resp) as [respBody|]; [|by intros [= <- _ _]].
  destruct (json_Decode respBody Response_zero) as [? [?|]]; [by intros [= <- _ _]|done].
Qed.

(** A body that the decoder fills the answer from before it fails. *)
Lemma ConnectAIModel_error_zero_witness :
  (json.Decode (json_text misshapen_answer) Response_zero).1 ≠ Response_zero
  ∧ (ConnectAIModel json.Marshal json.Decode (mock (answered misshapen_answer))
       people_payload "secret" []).1.1 = Response_zero.
Proof.
  split; [vm_compute; discriminate|].
  apply (ConnectAIModel_error_zero json.Marshal json.Decode
           (mock (answered misshapen_answer)) people_payload "secret" []
           _ (jsonUnmarshalTypeError "number" "cells")
           [Sent (modelRequest people_bytes "secret"); BodyRead; BodyClosed]).
  vm_compute. reflexivity.
Defined.

(** C8. Every call whose payload serializes issues exactly one request: a
    POST to the fixed endpoint, whose body is the serialized payload, with
    the header Authorization set to Bearer and the token and the header
    Content-Type set to application/json, and no other header. *)
Theorem ConnectAIModel_sends_one_post {Payload : Type}
    (json_Marshal : Payload → result bytes)
    (json_Decode : bytes → Response → Response * option error)
    (c : AIModelConnector) (payload : Payload) (token : string)
    (payloadBytes : bytes) (log : list event) :
  json_Marshal payload = ok payloadBytes →
  ∃ req,
    requests (ConnectAIModel json_Marshal json_Decode c payload token log).2
    = requests log ++ [req]
    ∧ http.Method req = "POST"
    ∧ http.URL req =
      "https://api-inference.huggingface.co/models/google/tapas-base-finetuned-wtq"
    ∧ http.Body req = payloadBytes
    ∧ http.Header req !! "Authorization" = Some ["Bearer " +:+ token]
    ∧ http.Header req !! "Content-Type" = Some ["application/json"]
    ∧ dom (http.Header req) = {[ "Authorization"; "Content-Type" ]}.
Proof.
  intros Hm. exists (modelRequest payloadBytes token).
  split; [|split; [done|]; split; [done|]; split; [done|]; split; [done|]; split; [done|]].
  - rewrite ConnectAIModel_cases, Hm. cbn zeta.
    destruct (http.RoundTrip (Client c) _) as [resp|err].
    + destruct (bool_decide _);
        [|destruct (http.RespBody resp) as [respBody|];
          [destruct (json_Decode respBody Response_zero) as [? [?|]]|]];
        cbn [snd]; unfold requests; rewrite omap_app; done.
    + cbn [snd]. unfold requests. by rewrite omap_app.
  - cbn [modelRequest http.Header]. rewrite !dom_insert_L, dom_empty_L.
    apply set_eq. intros k. rewrite !elem_of_union, !elem_of_singleton, elem_of_empty.
    tauto.
Qed.

(** The request for the table of Alice and Bob. *)
Lemma ConnectAIModel_sends_one_post_witness :
  ∃ req,
    requests (ConnectAIModel json.Marshal json.Decode (mock unauthorized)
                people_payload "secret" []).2 = requests [] ++ [req]
    ∧ http.Method req = "POST"
    ∧ http.URL req =
      "https://api-inference.huggingface.co/models/google/tapas-base-finetuned-wtq"
    ∧ http.Body req = people_bytes
    ∧ http.Header req !! "Authorization" = Some ["Bearer " +:+ "secret"]
    ∧ http.Header req !! "Content-Type" = Some ["application/json"]
    ∧ dom (http.Header req) = {[ "Authorization"; "Content-Type" ]}.
Proof.
  apply (ConnectAIModel_sends_one_post json.Marshal json.Decode).
  exact Marshal_people.
Defined.

(** C9, as stated, fails: a body with two coordinates and one cell decodes
    without error, and the successful call returns it. *)
Lemma ConnectAIModel_lopsided_answer :
  (ConnectAIModel json.Marshal json.Decode (mock (answered lopsided_answer))
     people_payload "secret" []).1 =
  (mkResponse "30" [[0; 1]; [1; 1]]%Z ["30"] "NONE", None)
  ∧ length [[0; 1]; [1; 1]]%Z ≠ length ["30"]
  ∧ [[0; 1]; [1; 1]]%Z ≠ [] ∧ ["30"] ≠ [].
Proof. split; [vm_compute; reflexivity|]. repeat split; discriminate. Qed.

(** C9, amended. The Answer a successful call returns is what the decoder
    made of the body of a response with status 200, as it is: ConnectAIModel
    checks nothing about it, so its coordinates and cells are as long as the
    body has them. *)
Theorem ConnectAIModel_answer_as_decoded {Payload : Type}
    (json_Marshal : Payload → result bytes)
    (json_Decode : bytes → Response → Response * option error)
    (c : AIModelConnector) (payload : Payload) (token : string)
    (log : list event) (response : Response) (log' : list event) :
  ConnectAIModel json_Marshal json_Decode c payload token log
  = ((response, None), log') →
  ∃ payloadBytes resp respBody,
    json_Marshal payload = ok payloadBytes
    ∧ http.RoundTrip (Client c) (modelRequest payloadBytes token) = ok resp
    ∧ http.StatusCode resp = 200%Z
    ∧ http.RespBody resp = ok respBody
    ∧ json_Decode respBody Response_zero = (response, None).
Proof.
  rewrite ConnectAIModel_cases.
  destruct (json_Marshal payload) as [payloadBytes|]; [|done].
  cbn zeta.
  destruct (http.RoundTrip (Client c) _) as [resp|] eqn:Hr; [|done].
  case_bool_decide as Hs; [done|].
  destruct (http.RespBody resp) as [respBody|] eqn:Hb; [|done].
  destruct (json_Decode respBody Response_zero) as [r [?|]] eqn:Hd; [done|].
  intros [= <- _]. exists payloadBytes, resp, respBody.
  repeat split; done.
Qed.

(** The answer about Alice. *)
Lemma ConnectAIModel_answer_as_decoded_witness :
  ∃ payloadBytes resp respBody,
    json.Marshal people_payload = ok payloadBytes
    ∧ http.RoundTrip (Client (mock (answered alice_answer)))
        (modelRequest payloadBytes "secret") = ok resp
    ∧ http.StatusCode resp = 200%Z
    ∧ http.RespBody resp = ok respBody
    ∧ json.Decode respBody Response_zero =
      (mkResponse "30" [[0; 1]%Z] ["30"] "NONE", None).
Proof.
  apply (ConnectAIModel_answer_as_decoded json.Marshal json.Decode
           (mock (answered alice_answer)) people_payload "secret" []
           (mkResponse "30" [[0; 1]%Z] ["30"] "NONE")
           [Sent (modelRequest people_bytes "secret"); BodyRead; BodyClosed]).
  vm_compute. reflexivity.
Defined.

(** C10, as stated, fails where the header row stands alone, and where a
    data row is shorter than it: the name a stands at two positions of the
    header, and CsvToSlice returns an error and no table. *)
Lemma CsvToSlice_duplicate_header_fails :
  rawRecords ("a,a" +:+ lf) = ([["a"; "a"]], None)
  ∧ rawRecords ("a,a" +:+ lf +:+ "1" +:+ lf) = ([["a"; "a"]; ["1"]], None)
  ∧ occurrences "a" ["a"; "a"] = 2
  ∧ CsvToSlice ("a,a" +:+ lf)
    = Returns (None, Some (errors_New "CSV file must contain at least one row of data"))
  ∧ CsvToSlice ("a,a" +:+ lf +:+ "1" +:+ lf)
    = Returns (None, Some (csvParseError (mkParseError 2 2 ErrFieldCount))).
Proof. repeat split; vm_compute; reflexivity. Qed.

(** C10, amended. Where a name [h] stands at two or more positions of the
    header row of an input that the reader accepts (every data row has as
    many fields as the header row) and that has at least one data row,
    CsvToSlice succeeds; the table has the one entry for [h], which collects
    the cells under all positions named [h] of every data row, so it is as
    long as the number of data rows times the number of occurrences of [h],
    longer than the number of data rows; and the table has fewer columns
    than the header has fields. *)
Theorem CsvToSlice_duplicate_headers (data : string) (headers : list string)
    (rows : list (list string)) (h : string) :
  csv.ReadAll (tableReader data) = (headers :: rows, None) →
  rows ≠ [] →
  2 ≤ occurrences h headers →
  ∃ result,
    CsvToSlice data = Returns (Some result, None)
    ∧ result !! h = Some (columnOf h headers rows)
    ∧ length (columnOf h headers rows) = length rows * occurrences h headers
    ∧ length rows < length (columnOf h headers rows)
    ∧ size result < length headers.
Proof.
  intros Hread Hrows Hocc.
  destruct (CsvToSlice_accepts data headers rows Hread Hrows) as (result & Hrun & Hres).
  destruct (ReadAll_table_uniform _ _ _ Hread) as [_ Hall].
  assert (h ∈ headers) as Hin by (apply occurrences_elem_of; lia).
  pose proof (columnOf_length h headers rows Hall) as Hlen.
  exists result. split; [done|]. split; [by rewrite Hres, decide_True|].
  split; [done|]. split.
  - rewrite Hlen. destruct rows; [done|]. simpl. nia.
  - rewrite <- size_dom.
    replace (dom result) with (list_to_set headers : gset string).
    + by eapply size_list_to_set_twice.
    + apply set_eq. intros k. rewrite elem_of_dom, elem_of_list_to_set, Hres.
      destruct (decide (k ∈ headers)); split; intros Hk; done.
Qed.

(** The header a,a. *)
Lemma CsvToSlice_duplicate_headers_witness :
  ∃ result,
    CsvToSlice twice_csv = Returns (Some result, None)
    ∧ result !! "a" = Some (columnOf "a" ["a"; "a"] [["1"; "2"]])
    ∧ length (columnOf "a" ["a"; "a"] [["1"; "2"]])
      = length [["1"; "2"]] * occurrences "a" ["a"; "a"]
    ∧ length [["1"; "2"]] < length (columnOf "a" ["a"; "a"] [["1"; "2"]])
    ∧ size result < length ["a"; "a"].
Proof.
  apply (CsvToSlice_duplicate_headers twice_csv ["a"; "a"] [["1"; "2"]] "a").
  - vm_compute. reflexivity.
  - discriminate.
  - vm_compute. lia.
Defined.

(** ** Further properties of the table loader *)

(** X1. CsvToSlice never panics, and it returns either a table with a nil
    error or no table with an error: never both, never neither. *)
Theorem CsvToSlice_table_or_error (data : string) :
  (∃ result, CsvToSlice data = Returns (Some result, None))
  ∨ (∃ err, CsvToSlice data = Returns (None, Some err)).
Proof.
  destruct (CsvToSlice_returns data) as [[[result|] err] Hrun].
  - destruct (CsvToSlice_success_inv _ _ _ Hrun) as (? & ? & _ & _ & ->). eauto.
  - right. revert Hrun. unfold CsvToSlice.
    destruct (csv.ReadAll (tableReader data)) as [records [e|]]; [by eauto|].
    destruct (length records <? 2)%nat; [by eauto|].
    destruct records as [|headers rows]; [done|].
    by destruct (rangeRows headers _ rows).
Qed.

(** X2. An input with a data row whose number of fields differs from the
    header's, be it shorter or longer, is rejected with the field count
    error: a row longer than the header never reaches the loop that indexes
    the headers. *)
Theorem CsvToSlice_rejects_ragged (data : string) (headers : list string)
    (rows : list (list string)) (row : list string) :
  rawRecords data = (headers :: rows, None) →
  row ∈ rows →
  length row ≠ length headers →
  ∃ l, CsvToSlice data =
       Returns (None, Some (csvParseError (mkParseError l l ErrFieldCount))).
Proof.
  intros Hraw Hrow Hlen.
  destruct (ReadAll_table_ragged data headers rows Hraw) as [l Hread].
  { intros Hall. rewrite Forall_forall in Hall. by specialize (Hall row Hrow). }
  exists l. unfold CsvToSlice. by rewrite Hread.
Qed.

(** A data row of three fields under a header of two. *)
Lemma CsvToSlice_rejects_ragged_witness :
  ∃ l, CsvToSlice ("a,b" +:+ lf +:+ "1,2,3" +:+ lf) =
       Returns (None, Some (csvParseError (mkParseError l l ErrFieldCount))).
Proof.
  apply (CsvToSlice_rejects_ragged _ ["a"; "b"] [["1"; "2"; "3"]] ["1"; "2"; "3"]).
  - vm_compute. reflexivity.
  - constructor.
  - simpl. lia.
Defined.

(** X3. CsvToSlice returns a table exactly for the inputs whose records, as
    written, are a header row and at least one data row, all data rows with
    as many fields as the header. *)
Theorem CsvToSlice_accepts_iff (data : string) :
  (∃ result, CsvToSlice data = Returns (Some result, None))
  ↔ ∃ headers rows,
      rawRecords data = (headers :: rows, None)
      ∧ rows ≠ []
      ∧ Forall (λ row, length row = length headers) rows.
Proof.
  split.
  - intros [result Hrun].
    destruct (CsvToSlice_success_inv _ _ _ Hrun) as (headers & rows & Hread & Hrows & _).
    exists headers, rows. split; [by apply ReadAll_table_raw|]. split; [done|].
    by destruct (ReadAll_table_uniform _ _ _ Hread).
  - intros (headers & rows & Hraw & Hrows & Hall).
    pose proof (ReadAll_table_accepts _ _ _ Hraw Hall) as Hread.
    destruct (CsvToSlice_accepts _ _ _ Hread Hrows) as (result & Hrun & _). eauto.
Qed.

(** X4. CsvToSlice fails in two ways only: with a parse error of the CSV
    reader, or with its own error for an input of fewer than two records. *)
Theorem CsvToSlice_errors (data : string) (table : option (gmap string (list string)))
    (err : error) :
  CsvToSlice data = Returns (table, Some err) →
  table = None
  ∧ (err = errors_New "CSV file must contain at least one row of data"
     ∨ ∃ pe, err = csvParseError pe).
Proof.
  unfold CsvToSlice.
  destruct (csv.ReadAll (tableReader data)) as [records [e|]] eqn:Hread.
  - intros [= <- <-]. split; [done|]. right. by eapply ReadAll_table_error.
  - destruct (length records <? 2)%nat; [intros [= <- <-]; by eauto|].
    destruct records as [|headers rows]; [done|].
    by destruct (rangeRows headers _ rows).
Qed.

(** The two ways, on a short row and on a header alone. *)
Lemma CsvToSlice_errors_witness :
  (@None (gmap string (list string)) = None
   ∧ (csvParseError (mkParseError 2 2 ErrFieldCount)
      = errors_New "CSV file must contain at least one row of data"
      ∨ ∃ pe, csvParseError (mkParseError 2 2 ErrFieldCount) = csvParseError pe))
  ∧ (@None (gmap string (list string)) = None
     ∧ (errors_New "CSV file must contain at least one row of data"
        = errors_New "CSV file must contain at least one row of data"
        ∨ ∃ pe, errors_New "CSV file must contain at least one row of data"
                = csvParseError pe)).
Proof.
  split.
  - apply (CsvToSlice_errors short_row_csv). vm_compute. reflexivity.
  - apply (CsvToSlice_errors header_only_csv). vm_compute. reflexivity.
Defined.

(** X5. The table holds the cells of the data rows and nothing else: a
    value stands in the column named [h] exactly when some data row has it
    at a position where the header row has [h]. *)
Theorem CsvToSlice_cells (data : string) (headers : list string)
    (rows : list (list string)) :
  csv.ReadAll (tableReader data) = (headers :: rows, None) →
  rows ≠ [] →
  ∃ result,
    CsvToSlice data = Returns (Some result, None)
    ∧ ∀ h v,
        (∃ col, result !! h = Some col ∧ v ∈ col)
        ↔ ∃ row i, row ∈ rows ∧ headers !! i = Some h ∧ row !! i = Some v.
Proof.
  intros Hread Hrows.
  destruct (CsvToSlice_accepts data headers rows Hread Hrows) as (result & Hrun & Hres).
  exists result. split; [done|]. intros h v. rewrite Hres.
  rewrite <- elem_of_columnOf. destruct (decide (h ∈ headers)) as [Hin|Hnin].
  - split; [by intros (col & [= <-] & ?) | eauto].
  - split; [by intros (col & ? & _)|].
    intros (row & i & _ & Hi & _)%elem_of_columnOf.
    destruct Hnin. by eapply list_elem_of_lookup_2.
Qed.

(** The table of Alice and Bob. *)
Lemma CsvToSlice_cells_witness :
  ∃ result,
    CsvToSlice people_csv = Returns (Some result, None)
    ∧ ∀ h v,
        (∃ col, result !! h = Some col ∧ v ∈ col)
        ↔ ∃ row i, row ∈ [["Alice"; "30"]; ["Bob"; "25"]]
                   ∧ ["Name"; "Age"] !! i = Some h ∧ row !! i = Some v.
Proof.
  apply (CsvToSlice_cells people_csv); [vm_compute; reflexivity | discriminate].
Defined.

(** X6. A table CsvToSlice returns has at least one column, and no column
    of it is empty. *)
Theorem CsvToSlice_no_empty_column (data : string)
    (result : gmap string (list string)) :
  CsvToSlice data = Returns (Some result, None) →
  result ≠ ∅ ∧ ∀ h col, result !! h = Some col → col ≠ [].
Proof.
  intros Hrun.
  destruct (CsvToSlice_success_inv _ _ _ Hrun) as (headers & rows & Hread & Hrows & _).
  destruct (CsvToSlice_accepts data headers rows Hread Hrows) as (result' & Hrun' & Hres).
  rewrite Hrun in Hrun'. injection Hrun' as <-.
  destruct (ReadAll_table_uniform _ _ _ Hread) as [Hpos Hall].
  assert (∀ h, h ∈ headers → 0 < length (columnOf h headers rows)) as Hcol.
  { intros h Hh. rewrite (columnOf_length h headers rows Hall).
    assert (1 ≤ occurrences h headers).
    { unfold occurrences.
      assert (h ∈ filter (λ h', h' = h) headers) as Hf by (by apply list_elem_of_filter).
      destruct (filter _ headers); [by apply elem_of_nil in Hf | simpl; lia]. }
    destruct rows; [done|]. simpl. nia. }
  split.
  - destruct headers as [|h0 headers]; [simpl in Hpos; lia|].
    intros ->. specialize (Hres h0). rewrite lookup_empty in Hres.
    rewrite decide_True in Hres by constructor. done.
  - intros h col. rewrite Hres. destruct (decide (h ∈ headers)) as [Hin|]; [|done].
    intros [= <-] Hnil. specialize (Hcol h Hin). rewrite Hnil in Hcol. simpl in Hcol. lia.
Qed.

(** The table of Alice and Bob. *)
Lemma CsvToSlice_no_empty_column_witness :
  ({[ "Name" := ["Alice"; "Bob"]; "Age" := ["30"; "25"] ]} : gmap string (list string)) ≠ ∅
  ∧ ∀ h col,
      ({[ "Name" := ["Alice"; "Bob"]; "Age" := ["30"; "25"] ]}
       : gmap string (list string)) !! h = Some col → col ≠ [].
Proof.
  apply (CsvToSlice_no_empty_column people_csv). vm_compute. reflexivity.
Defined.



(** ** Further properties of the connector *)


(** X9. When the payload cannot be serialized, nothing is sent: the call
    returns the zero Response with the error of the serializer and leaves
    the log as it was. *)
Theorem ConnectAIModel_marshal_error {Payload : Type}
    (json_Marshal : Payload → result bytes)
    (json_Decode : bytes → Response → Response * option error)
    (c : AIModelConnector) (payload : Payload) (token : string) (log : list event)
    (err : error) :
  json_Marshal payload = failed err →
  ConnectAIModel json_Marshal json_Decode c payload token log
  = ((Response_zero, Some err), log).
Proof. intros Hm. by rewrite ConnectAIModel_cases, Hm. Qed.

(** A payload type whose one value does not serialize. *)
Lemma ConnectAIModel_marshal_error_witness :
  ConnectAIModel (λ _ : unit, failed (errorString "json: unsupported type"))
    json.Decode (mock unauthorized) tt "secret" []
  = ((Response_zero, Some (errorString "json: unsupported type")), []).
Proof.
  apply (ConnectAIModel_marshal_error
           (λ _ : unit, failed (errorString "json: unsupported type"))).
  reflexivity.
Defined.

(** X10. When the exchange with the remote fails, the call returns the zero
    Response with the error of the transport, as it is; the request was
    sent once and there is no body to read or close. *)
Theorem ConnectAIModel_transport_error {Payload : Type}
    (json_Marshal : Payload → result bytes)
    (json_Decode : bytes → Response → Response * option error)
    (c : AIModelConnector) (payload : Payload) (token : string) (log : list event)
    (payloadBytes : bytes) (err : error) :
  json_Marshal payload = ok payloadBytes →
  http.RoundTrip (Client c) (modelRequest payloadBytes token) = failed err →
  ConnectAIModel json_Marshal json_Decode c payload token log
  = ((Response_zero, Some err), log ++ [Sent (modelRequest payloadBytes token)]).
Proof. intros Hm Hr. rewrite ConnectAIModel_cases, Hm. cbn zeta. by rewrite Hr. Qed.

(** A network that refuses the connection. *)
Lemma ConnectAIModel_transport_error_witness :
  ConnectAIModel json.Marshal json.Decode
    (mkConnector (http.mkClient (λ _, failed (errorString "connection refused"))))
    people_payload "secret" []
  = ((Response_zero, Some (errorString "connection refused")),
     [] ++ [Sent (modelRequest people_bytes "secret")]).
Proof.
  apply (ConnectAIModel_transport_error json.Marshal json.Decode);
    [exact Marshal_people | reflexivity].
Defined.

(** X11. When the status is 200 and reading the body fails, the call
    returns the zero Response with the error of the read; the decoder has no
    part in the result, and the body is closed. *)
Theorem ConnectAIModel_read_error {Payload : Type}
    (json_Marshal : Payload → result bytes)
    (json_Decode : bytes → Response → Response * option error)
    (c : AIModelConnector) (payload : Payload) (token : string) (log : list event)
    (payloadBytes : bytes) (resp : http.Response) (err : error) :
  json_Marshal payload = ok payloadBytes →
  http.RoundTrip (Client c) (modelRequest payloadBytes token) = ok resp →
  http.StatusCode resp = 200%Z →
  http.RespBody resp = failed err →
  ConnectAIModel json_Marshal json_Decode c payload token log
  = ((Response_zero, Some err),
     log ++ [Sent (modelRequest payloadBytes token); BodyRead; BodyClosed]).
Proof.
  intros Hm Hr Hs Hb. rewrite ConnectAIModel_cases, Hm. cbn zeta. rewrite Hr.
  rewrite bool_decide_false by (by intros []). by rewrite Hb.
Qed.

(** A body that breaks off while it is read. *)
Lemma ConnectAIModel_read_error_witness :
  ConnectAIModel json.Marshal json.Decode
    (mock (http.mkResponse 200 "200 OK" (failed io_ErrUnexpectedEOF)))
    people_payload "secret" []
  = ((Response_zero, Some io_ErrUnexpectedEOF),
     [] ++ [Sent (modelRequest people_bytes "secret"); BodyRead; BodyClosed]).
Proof.
  apply (ConnectAIModel_read_error json.Marshal json.Decode
           (mock (http.mkResponse 200 "200 OK" (failed io_ErrUnexpectedEOF)))
           people_payload "secret" [] people_bytes
           (http.mkResponse 200 "200 OK" (failed io_ErrUnexpectedEOF)));
    [exact Marshal_people | reflexivity..].
Defined.

(** X12. When the body of a 200 response does not decode, the call returns
    the error of the decoder, as it is, with the zero Response in place of
    what the decoder had stored; the body was read once and is closed. *)
Theorem ConnectAIModel_decode_error {Payload : Type}
    (json_Marshal : Payload → result bytes)
    (json_Decode : bytes → Response → Response * option error)
    (c : AIModelConnector) (payload : Payload) (token : string) (log : list event)
    (payloadBytes : bytes) (resp : http.Response) (respBody : bytes)
    (partial : Response) (err : error) :
  json_Marshal payload = ok payloadBytes →
  http.RoundTrip (Client c) (modelRequest payloadBytes token) = ok resp →
  http.StatusCode resp = 200%Z →
  http.RespBody resp = ok respBody →
  json_Decode respBody Response_zero = (partial, Some err) →
  ConnectAIModel json_Marshal json_Decode c payload token log
  = ((Response_zero, Some err),
     log ++ [Sent (modelRequest payloadBytes token); BodyRead; BodyClosed]).
Proof.
  intros Hm Hr Hs Hb Hd. rewrite ConnectAIModel_cases, Hm. cbn zeta. rewrite Hr.
  rewrite bool_decide_false by (by intros []). by rewrite Hb, Hd.
Qed.

(** A body whose answer decodes and whose cells do not. *)
Lemma ConnectAIModel_decode_error_witness :
  ConnectAIModel json.Marshal json.Decode (mock (answered misshapen_answer))
    people_payload "secret" []
  = ((Response_zero, Some (jsonUnmarshalTypeError "number" "cells")),
     [] ++ [Sent (modelRequest people_bytes "secret"); BodyRead; BodyClosed]).
Proof.
  apply (ConnectAIModel_decode_error json.Marshal json.Decode
           (mock (answered misshapen_answer)) people_payload "secret" [] people_bytes
           (answered misshapen_answer) (json_text misshapen_answer)
           (mkResponse "30" [] [] ""));
    [exact Marshal_people | reflexivity | reflexivity | reflexivity
     | vm_compute; reflexivity].
Defined.

(** X13. When the payload serializes, the remote answers 200, the body is
    read and it decodes, the call returns the decoded Response with a nil
    error, after one request, one read and the closing of the body. *)
Theorem ConnectAIModel_success {Payload : Type}
    (json_Marshal : Payload → result bytes)
    (json_Decode : bytes → Response → Response * option error)
    (c : AIModelConnector) (payload : Payload) (token : string) (log : list event)
    (payloadBytes : bytes) (resp : http.Response) (respBody : bytes)
    (response : Response) :
  json_Marshal payload = ok payloadBytes →
  http.RoundTrip (Client c) (modelRequest payloadBytes token) = ok resp →
  http.StatusCode resp = 200%Z →
  http.RespBody resp = ok respBody →
  json_Decode respBody Response_zero = (response, None) →
  ConnectAIModel json_Marshal json_Decode c payload token log
  = ((response, None),
     log ++ [Sent (modelRequest payloadBytes token); BodyRead; BodyClosed]).
Proof.
  intros Hm Hr Hs Hb Hd. rewrite ConnectAIModel_cases, Hm. cbn zeta. rewrite Hr.
  rewrite bool_decide_false by (by intros []). by rewrite Hb, Hd.
Qed.

(** The answer about Alice. *)
Lemma ConnectAIModel_success_witness :
  ConnectAIModel json.Marshal json.Decode (mock (answered alice_answer))
    people_payload "secret" []
  = ((mkResponse "30" [[0; 1]%Z] ["30"] "NONE", None),
     [] ++ [Sent (modelRequest people_bytes "secret"); BodyRead; BodyClosed]).
Proof.
  apply (ConnectAIModel_success json.Marshal json.Decode
           (mock (answered alice_answer)) people_payload "secret" [] people_bytes
           (answered alice_answer) (json_text alice_answer));
    [exact Marshal_people | reflexivity | reflexivity | reflexivity
     | vm_compute; reflexivity].
Defined.

(** ** Further properties of the handler *)

(** X14. The handler never panics, and it replies in three ways only: with
    an error and the status 400 or 500, or with a Response and the status
    200. *)
Theorem ask_replies (json_Marshal : Inputs → result bytes)
    (json_Decode : bytes → Response → Response * option error)
    (env : Env) (log : list event) :
  ∃ r, (ask json_Marshal json_Decode env log).1 = Returns r
       ∧ match r with
         | reply_error code _ _ => code = 400%Z ∨ code = 500%Z
         | reply_json code _ => code = 200%Z
         end.
Proof.
  unfold ask.
  destruct (os_Open env "data-series.csv") as [[rowData|]|];
    [|eexists; split; [done|]; by right ..].
  destruct (CsvToSlice_returns (string_of rowData)) as [[table [err|]] ->];
    [eexists; split; [done|]; by right|].
  destruct (BindJSON env) as [query|]; [|eexists; split; [done|]; by left].
  case_bool_decide; [eexists; split; [done|]; by right|]. run_io.
  destruct (ConnectAIModel _ _ _ _ _ log) as [[response [err|]] log']; cbn.
  - eexists; split; [done|]; by right.
  - eexists; split; [done|]; done.
Qed.

(** X15. A request goes out only when the CSV file has been read and
    converted, the query bound and a token found; it is then the one
    request for the serialized pair of that table and that query, with that
    token. *)
Theorem ask_sends_only_if (json_Marshal : Inputs → result bytes)
    (json_Decode : bytes → Response → Response * option error)
    (env : Env) (log : list event) :
  (ask json_Marshal json_Decode env log).2 ≠ log →
  ∃ rowData table query payloadBytes,
    os_Open env "data-series.csv" = ok (ok rowData)
    ∧ CsvToSlice (string_of rowData) = Returns (table, None)
    ∧ BindJSON env = ok query
    ∧ os_Getenv env "HUGGINGFACE_TOKEN" ≠ ""
    ∧ json_Marshal (mkInputs table query) = ok payloadBytes
    ∧ requests (ask json_Marshal json_Decode env log).2
      = requests log
        ++ [modelRequest payloadBytes (os_Getenv env "HUGGINGFACE_TOKEN")].
Proof.
  intros Hlog.
  destruct (ask_quiet _ _ _ _ Hlog) as (rowData & table & query & Ho & Hc & Hb & Ht).
  exists rowData, table, query.
  rewrite (ask_connects _ _ _ _ _ _ _ Ho Hc Hb Ht) in Hlog |- *.
  destruct (ConnectAIModel _ _ _ _ _ log) as [[response err] log'] eqn:Hrun.
  cbn [snd] in *. revert Hrun. rewrite ConnectAIModel_cases.
  destruct (json_Marshal (mkInputs table query)) as [payloadBytes|];
    [|by intros [= _ _ <-]].
  intros Hrun. exists payloadBytes. repeat (split; [done|]).
  revert Hrun. cbn zeta.
  destruct (http.RoundTrip _ _) as [resp|];
    [destruct (bool_decide _);
      [|destruct (http.RespBody resp) as [respBody|];
        [destruct (json_Decode respBody Response_zero) as [? [?|]]|]]|];
    intros [= _ _ <-]; unfold requests; by rewrite omap_app.
Qed.

(** The table of Alice and Bob, a query and a token. *)
Lemma ask_sends_only_if_witness :
  ∃ rowData table query payloadBytes,
    os_Open (env_with (ok "What is Alice's age?") "secret" (answered alice_answer))
      "data-series.csv" = ok (ok rowData)
    ∧ CsvToSlice (string_of rowData) = Returns (table, None)
    ∧ BindJSON (env_with (ok "What is Alice's age?") "secret" (answered alice_answer))
      = ok query
    ∧ os_Getenv (env_with (ok "What is Alice's age?") "secret" (answered alice_answer))
        "HUGGINGFACE_TOKEN" ≠ ""
    ∧ json.Marshal (mkInputs table query) = ok payloadBytes
    ∧ requests (ask json.Marshal json.Decode
                  (env_with (ok "What is Alice's age?") "secret"
                     (answered alice_answer)) []).2
      = requests []
        ++ [modelRequest payloadBytes
              (os_Getenv (env_with (ok "What is Alice's age?") "secret"
                            (answered alice_answer)) "HUGGINGFACE_TOKEN")].
Proof.
  apply (ask_sends_only_if json.Marshal json.Decode). vm_compute. discriminate.
Defined.

(** X16. A CSV file that CsvToSlice rejects is reported first: the reply is
    the status 500 with the error of CsvToSlice, whatever the body of the
    request and the token are, and nothing is sent. *)
Theorem ask_csv_error (json_Marshal : Inputs → result bytes)
    (json_Decode : bytes → Response → Response * option error)
    (env : Env) (log : list event) (rowData : bytes)
    (table : option (gmap string (list string))) (err : error) :
  os_Open env "data-series.csv" = ok (ok rowData) →
  CsvToSlice (string_of rowData) = Returns (table, Some err) →
  ask json_Marshal json_Decode env log
  = (Returns (reply_error 500 "Error converting CSV to slice: %v" (Some err)), log).
Proof. intros Ho Hc. unfold ask. by rewrite Ho, Hc. Qed.

(** A file with a short row, a body that does not bind and no token. *)
Lemma ask_csv_error_witness :
  ask json.Marshal json.Decode
    (mkEnv (λ _, ok (ok (bytes_of short_row_csv))) (failed io_EOF) (λ _, "")
       (λ _, ok unauthorized)) []
  = (Returns (reply_error 500 "Error converting CSV to slice: %v"
                (Some (csvParseError (mkParseError 2 2 ErrFieldCount)))), []).
Proof.
  apply (ask_csv_error json.Marshal json.Decode _ [] (bytes_of short_row_csv) None);
    [reflexivity | vm_compute; reflexivity].
Defined.

(** X17. With the table loaded, a request whose body does not bind is
    answered with the status 400 and Invalid request, before the token is
    looked at, and nothing is sent. *)
Theorem ask_invalid_request (json_Marshal : Inputs → result bytes)
    (json_Decode : bytes → Response → Response * option error)
    (env : Env) (log : list event) (rowData : bytes)
    (table : option (gmap string (list string))) (err : error) :
  os_Open env "data-series.csv" = ok (ok rowData) →
  CsvToSlice (string_of rowData) = Returns (table, None) →
  BindJSON env = failed err →
  ask json_Marshal json_Decode env log
  = (Returns (reply_error 400 "Invalid request" None), log).
Proof. intros Ho Hc Hb. unfold ask. by rewrite Ho, Hc, Hb. Qed.

(** An empty body, and no token either. *)
Lemma ask_invalid_request_witness :
  ask json.Marshal json.Decode (env_with (failed io_EOF) "" (answered alice_answer)) []
  = (Returns (reply_error 400 "Invalid request" None), []).
Proof.
  apply (ask_invalid_request json.Marshal json.Decode _ [] (bytes_of people_csv)
           (Some {[ "Name" := ["Alice"; "Bob"]; "Age" := ["30"; "25"] ]}) io_EOF);
    [reflexivity | vm_compute; reflexivity | reflexivity].
Defined.

(** X18. From end to end: with the table loaded, the query bound and a token
    set, when the remote answers the request for that table and query with
    the status 200 and a body that decodes, the handler replies with the
    status 200 and the decoded Response, after that one request. *)
Theorem ask_success (json_Marshal : Inputs → result bytes)
    (json_Decode : bytes → Response → Response * option error)
    (env : Env) (log : list event) (rowData : bytes)
    (table : option (gmap string (list string))) (query : string)
    (payloadBytes : bytes) (resp : http.Response) (respBody : bytes)
    (response : Response) :
  os_Open env "data-series.csv" = ok (ok rowData) →
  CsvToSlice (string_of rowData) = Returns (table, None) →
  BindJSON env = ok query →
  os_Getenv env "HUGGINGFACE_TOKEN" ≠ "" →
  json_Marshal (mkInputs table query) = ok payloadBytes →
  network env (modelRequest payloadBytes (os_Getenv env "HUGGINGFACE_TOKEN")) = ok resp →
  http.StatusCode resp = 200%Z →
  http.RespBody resp = ok respBody →
  json_Decode respBody Response_zero = (response, None) →
  ask json_Marshal json_Decode env log
  = (Returns (reply_json 200 response),
     log ++ [Sent (modelRequest payloadBytes (os_Getenv env "HUGGINGFACE_TOKEN"));
             BodyRead; BodyClosed]).
Proof.
  intros Ho Hc Hb Ht Hm Hn Hs Hbody Hd.
  rewrite (ask_connects _ _ _ _ _ _ _ Ho Hc Hb Ht).
  rewrite ConnectAIModel_cases, Hm. cbn zeta. cbn [Client http.RoundTrip].
  rewrite Hn. rewrite bool_decide_false by (by intros []). by rewrite Hbody, Hd.
Qed.

(** The question about Alice, answered. *)
Lemma ask_success_witness :
  ask json.Marshal json.Decode
    (env_with (ok "What is Alice's age?") "secret" (answered alice_answer)) []
  = (Returns (reply_json 200 (mkResponse "30" [[0; 1]%Z] ["30"] "NONE")),
     [] ++ [Sent (modelRequest people_bytes "secret"); BodyRead; BodyClosed]).
Proof.
  apply (ask_success json.Marshal json.Decode
           (env_with (ok "What is Alice's age?") "secret" (answered alice_answer)) []
           (bytes_of people_csv)
           (Some {[ "Name" := ["Alice"; "Bob"]; "Age" := ["30"; "25"] ]})
           "What is Alice's age?" people_bytes (answered alice_answer)
           (json_text alice_answer));
    [reflexivity | vm_compute; reflexivity | reflexivity | discriminate
     | vm_compute; reflexivity | reflexivity | reflexivity | reflexivity
     | vm_compute; reflexivity].
Defined.

(** X19. When the remote answers with a status that is not 200, the handler
    replies with the status 500 and the error that carries the status code
    and text of the remote. *)
Theorem ask_remote_rejection (json_Marshal : Inputs → result bytes)
    (json_Decode : bytes → Response → Response * option error)
    (env : Env) (log : list event) (rowData : bytes)
    (table : option (gmap string (list string))) (query : string)
    (payloadBytes : bytes) (resp : http.Response) :
  os_Open env "data-series.csv" = ok (ok rowData) →
  CsvToSlice (string_of rowData) = Returns (table, None) →
  BindJSON env = ok query →
  os_Getenv env "HUGGINGFACE_TOKEN" ≠ "" →
  json_Marshal (mkInputs table query) = ok payloadBytes →
  network env (modelRequest payloadBytes (os_Getenv env "HUGGINGFACE_TOKEN")) = ok resp →
  http.StatusCode resp ≠ 200%Z →
  (ask json_Marshal json_Decode env log).1
  = Returns (reply_error 500 "Error connecting to AI model: %v"
               (Some (errorString ("failed to get valid response: "
                                   +:+ pretty (http.StatusCode resp) +:+ " "
                                   +:+ http.Status resp)))).
Proof.
  intros Ho Hc Hb Ht Hm Hn Hs.
  rewrite (ask_connects _ _ _ _ _ _ _ Ho Hc Hb Ht).
  rewrite ConnectAIModel_cases, Hm. cbn zeta. cbn [Client http.RoundTrip].
  rewrite Hn. by rewrite bool_decide_true.
Qed.

(** A remote end that answers 401. *)
Lemma ask_remote_rejection_witness :
  (ask json.Marshal json.Decode
     (env_with (ok "What is Alice's age?") "secret" unauthorized) []).1
  = Returns (reply_error 500 "Error connecting to AI model: %v"
               (Some (errorString "failed to get valid response: 401 401 Unauthorized"))).
Proof.
  apply (ask_remote_rejection json.Marshal json.Decode
           (env_with (ok "What is Alice's age?") "secret" unauthorized) []
           (bytes_of people_csv)
           (Some {[ "Name" := ["Alice"; "Bob"]; "Age" := ["30"; "25"] ]})
           "What is Alice's age?" people_bytes unauthorized);
    [reflexivity | vm_compute; reflexivity | reflexivity | discriminate
     | vm_compute; reflexivity | reflexivity | discriminate].
Defined.

(** ** Properties of routing *)

(** X20. Of all the requests the router serves, only a POST to /ask that
    finds the table, the query and a token can send anything to the remote
    end: every other method and path leaves the log as it was. *)
Theorem serve_sends_only_for_ask (json_Marshal : Inputs → result bytes)
    (json_Decode : bytes → Response → Response * option error)
    (env : Env) (method path : string) (log : list event) :
  (serve json_Marshal json_Decode env method path log).2 ≠ log →
  method = "POST" ∧ path = "/ask"
  ∧ os_Getenv env "HUGGINGFACE_TOKEN" ≠ ""
  ∧ ∃ rowData table query,
      os_Open env "data-series.csv" = ok (ok rowData)
      ∧ CsvToSlice (string_of rowData) = Returns (table, None)
      ∧ BindJSON env = ok query.
Proof.
  unfold serve. case_bool_decide as Hget; [done|].
  case_bool_decide as Hpost; [|done]. destruct Hpost as [-> ->]. run_io.
  destruct (ask json_Marshal json_Decode env log) as [r log'] eqn:Hask.
  intros Hlog.
  assert ((ask json_Marshal json_Decode env log).2 ≠ log) as Hlog'.
  { rewrite Hask. by destruct r. }
  destruct (ask_quiet _ _ _ _ Hlog') as (rowData & table & query & ? & ? & ? & ?).
  repeat (split; [done|]). by exists rowData, table, query.
Qed.

(** The question about Alice, posted to /ask. *)
Lemma serve_sends_only_for_ask_witness :
  "POST" = "POST" ∧ "/ask" = "/ask"
  ∧ os_Getenv (env_with (ok "What is Alice's age?") "secret" (answered alice_answer))
      "HUGGINGFACE_TOKEN" ≠ ""
  ∧ ∃ rowData table query,
      os_Open (env_with (ok "What is Alice's age?") "secret" (answered alice_answer))
        "data-series.csv" = ok (ok rowData)
      ∧ CsvToSlice (string_of rowData) = Returns (table, None)
      ∧ BindJSON (env_with (ok "What is Alice's age?") "secret" (answered alice_answer))
        = ok query.
Proof.
  apply (serve_sends_only_for_ask json.Marshal json.Decode
           (env_with (ok "What is Alice's age?") "secret" (answered alice_answer))
           "POST" "/ask" []).
  vm_compute. discriminate.
Defined.
